(** * TRPO agent (baselines/TRPO/agent.py): model and verified properties

    The agent computes with floating-point tensors.  This development reads
    the same program over exact rational numbers ([Qc], canonical fractions
    with Leibniz equality), so that every definition below can be run on
    concrete inputs and the algebra of the algorithms can be checked without
    rounding.  Three modelling conventions are used throughout:

    - a quotient whose divisor is zero has no value.  The program either
      raises there ([ZeroDivisionError] on Python floats) or goes on with
      [inf]/[nan] (tensors, numpy scalars); the model does neither: it
      answers [None] and follows the program no further, keeping the state
      reached at that point, so a result [None] says that such a quotient
      was reached and nothing about what the program does after it.  A
      missing object, an index out of range and a zero [xrange] step, which
      do raise, are [None] as well.  Two places are read on IEEE numbers
      instead: the acceptance test of the line search, whose quotient is
      only compared ([xdiv]), and the standardisation of the advantage in
      float32 ([f32]);
    - one-dimensional tensors are lists; element-wise operations pair the
      entries position by position (every call in the agent passes operands
      built from the same parameter list, so the lengths agree);
    - what lives outside agent.py (the policy and value networks, autograd,
      the square root, the environment and the sampler) enters as a parameter
      of the section that needs it. *)

From Stdlib Require Import QArith Qcanon Qcabs Reals Psatz Floats.SpecFloat.
From stdpp Require Import base numbers list gmap strings.

Local Open Scope Qc_scope.
(* [ x ] is a one-element list in this file, not an absolute value. *)
Disable Notation "[ q ]" : Qc_scope.

(** ** Numbers *)

(** [qc n d] is the fraction n/d. *)
Definition qc (n : Z) (d : positive) : Qc := Q2Qc (n # d).

Definition Qcltb (x y : Qc) : bool :=
  match x ?= y with Lt => true | _ => false end.

Definition Qceqb (x y : Qc) : bool :=
  match x ?= y with Eq => true | _ => false end.

Definition Qcleb (x y : Qc) : bool := negb (Qcltb y x).

(** [x / y] as the program sees it: no value when [y] is zero. *)
Definition qdiv (x y : Qc) : option Qc :=
  if Qceqb y 0 then None else Some (x / y).

(** A quotient of floats that is only compared, never computed with: it is
    a number, [inf], [-inf] or [nan].  The rationals have one zero: as a
    divisor it stands for the float [0.0] (not for [-0.0]). *)
Inductive xnum := Fin (q : Qc) | PInf | NInf | NaN.

Definition xdiv (x y : Qc) : xnum :=
  if Qceqb y 0 then
    if Qcltb 0 x then PInf else if Qcltb x 0 then NInf else NaN
  else Fin (x / y).

(** [v > c]: false on [nan]. *)
Definition xgtb (v : xnum) (c : Qc) : bool :=
  match v with
  | Fin q => Qcltb c q
  | PInf => true
  | NInf | NaN => false
  end.

(** ** Vectors (flat tensors) *)

Abbreviation vec := (list Qc).

Definition vadd (u v : vec) : vec := zip_with Qcplus u v.
Definition vsub (u v : vec) : vec := zip_with Qcminus u v.
Definition vscale (c : Qc) (v : vec) : vec := Qcmult c <$> v.
Definition vneg (v : vec) : vec := Qcopp <$> v.
Definition dot (u v : vec) : Qc := foldr Qcplus 0 (zip_with Qcmult u v).
Definition zeros_like (b : vec) : vec := replicate (length b) 0.

(** The linear operator [v ↦ A·v] of a matrix given by its rows. *)
Definition matvec (A : list vec) (v : vec) : vec := (λ row, dot row v) <$> A.

(** ** Agent configuration (the arguments of [Agent.__init__]) *)

Record agent := Agent {
  accept_ratio : Qc;
  reward_gamma : Qc;
  cg_iters : nat;
  cg_tol : Qc;
  cg_damping : Qc;
  max_kl : Qc;
  ls_iters : nat
}.

(** The default values of the constructor. *)
Definition default_agent : agent :=
  {| accept_ratio := qc 9 10;
     reward_gamma := qc 9 10;
     cg_iters := 10;
     cg_tol := qc 1 10000000000;
     cg_damping := qc 1 1000;
     max_kl := qc 1 100;
     ls_iters := 10 |}.

(** ** Conjugate gradient ([Agent.cg]) *)

(** The loop-carried variables of [cg]. *)
Record cg_state := CgState {
  cg_x : vec;
  cg_r : vec;
  cg_p : vec;
  cg_rdotr : Qc
}.

(** The four assignments before the loop. *)
Definition cg_init (b : vec) : cg_state :=
  {| cg_x := zeros_like b; cg_r := b; cg_p := b; cg_rdotr := dot b b |}.

(** The loop body up to (not including) the tolerance test.  A zero divisor
    ends the model's run: where [dot] returns a Python float the program
    raises [ZeroDivisionError] there, where it returns a tensor the program
    goes on with [nan]. *)
Definition cg_iter (fvp : vec → vec) (s : cg_state) : option cg_state :=
  let z := fvp (cg_p s) in
  v ← qdiv (cg_rdotr s) (dot (cg_p s) z);
  let x := vadd (cg_x s) (vscale v (cg_p s)) in
  let r := vsub (cg_r s) (vscale v z) in
  let newrdotr := dot r r in
  mu ← qdiv newrdotr (cg_rdotr s);
  let p := vadd r (vscale mu (cg_p s)) in
  Some {| cg_x := x; cg_r := r; cg_p := p; cg_rdotr := newrdotr |}.

(** [for i in xrange(n)] with the [break].  The first component counts the
    evaluations of [fvp] (one at the top of every iteration that is entered);
    the second is the state on leaving the loop, or [None] when a quotient in
    the body has no value. *)
Fixpoint cg_loop (fvp : vec → vec) (tol : Qc) (n : nat) (s : cg_state)
  : nat * option cg_state :=
  match n with
  | O => (O, Some s)
  | S n' =>
      match cg_iter fvp s with
      | None => (1%nat, None)
      | Some s' =>
          if Qcltb (cg_rdotr s') tol then (1%nat, Some s')
          else let '(k, o) := cg_loop fvp tol n' s' in (S k, o)
      end
  end.

Definition cg_run (a : agent) (fvp : vec → vec) (b : vec) : nat * option cg_state :=
  cg_loop fvp (cg_tol a) (cg_iters a) (cg_init b).

(** [self.cg(fvp, b)]: the returned [x]. *)
Definition cg (a : agent) (fvp : vec → vec) (b : vec) : option vec :=
  cg_x <$> (cg_run a fvp b).2.

(** Number of operator applications made by [self.cg(fvp, b)]. *)
Definition cg_calls (a : agent) (fvp : vec → vec) (b : vec) : nat :=
  (cg_run a fvp b).1.

(** [k] iterations of the body with no tolerance test in between. *)
Fixpoint cg_iterate (fvp : vec → vec) (k : nat) (s : cg_state) : option cg_state :=
  match k with
  | O => Some s
  | S k' => s' ← cg_iter fvp s; cg_iterate fvp k' s'
  end.

(** ** Discounted returns (the loop at the end of an episode in [Agent.learn]) *)

(** [l[-k]] for [k ≥ 1]: Python counts from the end and raises [IndexError]
    past the front of the list. *)
Definition py_back {A} (l : list A) (k : nat) : option A :=
  if decide (1 ≤ k ≤ length l)%nat then l !! (length l - k)%nat else None.

(** [l[-k] = x]. *)
Definition py_set_back {A} (l : list A) (k : nat) (x : A) : option (list A) :=
  if decide (1 ≤ k ≤ length l)%nat then Some (<[(length l - k)%nat := x]> l) else None.

(** [trajectories[2][-i-1][0] += trajectories[2][-i][0] * self.reward_gamma];
    [rs] is the whole reward column collected so far (all episodes). *)
Definition discount_step (gamma : Qc) (rs : list Qc) (i : nat) : option (list Qc) :=
  old ← py_back rs (i + 1);
  nxt ← py_back rs i;
  py_set_back rs (i + 1) (old + nxt * gamma).

(** A [for] loop over an index list whose body may raise. *)
Fixpoint for_each {S : Type} (body : S → nat → option S) (idx : list nat) (s : S)
  : option S :=
  match idx with
  | [] => Some s
  | i :: idx' => s' ← body s i; for_each body idx' s'
  end.

(** [for i in xrange(1, episode_len): ...]. *)
Definition discount_episode (gamma : Qc) (episode_len : nat) (rs : list Qc)
  : option (list Qc) :=
  for_each (discount_step gamma) (seq 1 (episode_len - 1)) rs.

(** The reward column over a whole sampling phase: the rewards of each episode
    are appended one by one, then the loop above runs with that episode's
    length.  An episode is given by the rewards [env.step] returned until
    [done] (at least one, the [while] body runs before [done] is read). *)
Fixpoint collect_rewards (gamma : Qc) (episodes : list (list Qc)) (rs : list Qc)
  : option (list Qc) :=
  match episodes with
  | [] => Some rs
  | ep :: rest =>
      rs' ← discount_episode gamma (length ep) (rs ++ ep);
      collect_rewards gamma rest rs'
  end.

(** ** The mutable world of the agent *)

(** Policy-model objects live on a heap: a location holds the parameter vector
    of one model.  [self._policy] is one location; [copy.deepcopy] allocates
    another.  The value network's parameters and the lines written by
    [logger.warn] are the rest of the state; [fvp_calls] counts evaluations
    of [self.fvp]. *)
Record world := World {
  models : gmap nat vec;
  value_theta : vec;
  log : list string;
  fvp_calls : nat
}.

Definition set_models (f : gmap nat vec → gmap nat vec) (w : world) : world :=
  {| models := f (models w); value_theta := value_theta w;
     log := log w; fvp_calls := fvp_calls w |}.

Definition set_value_theta (v : vec) (w : world) : world :=
  {| models := models w; value_theta := v;
     log := log w; fvp_calls := fvp_calls w |}.

Definition add_log (msg : string) (w : world) : world :=
  {| models := models w; value_theta := value_theta w;
     log := log w ++ [msg]; fvp_calls := fvp_calls w |}.

Definition add_fvp_calls (k : nat) (w : world) : world :=
  {| models := models w; value_theta := value_theta w;
     log := log w; fvp_calls := (fvp_calls w + k)%nat |}.

(** Computations that read and write the world and may stop without a
    value; the world reached at that point is kept. *)
Definition M (A : Type) : Type := world → option A * world.

Global Instance M_ret : MRet M := λ A a w, (Some a, w).
Global Instance M_bind : MBind M := λ A B k m w,
  match m w with
  | (Some a, w') => k a w'
  | (None, w') => (None, w')
  end.

Definition lift {A} (o : option A) : M A := λ w, (o, w).
Definition modify (f : world → world) : M () := λ w, (Some (), f w).

(** [parameters_to_vector(model.parameters())]. *)
Definition parameters_to_vector (l : nat) : M vec := λ w, (models w !! l, w).

(** [vector_to_parameters(theta, model.parameters())]: the parameters are
    filled from the front of [theta]; a vector that is too short is an
    error (the agent only passes vectors of the model's own length). *)
Definition vector_to_parameters (theta : vec) (l : nat) : M () := λ w,
  match models w !! l with
  | Some old =>
      if decide (length old ≤ length theta)%nat
      then (Some (), set_models <[l := take (length old) theta]> w)
      else (None, w)
  | None => (None, w)
  end.

(** [copy.deepcopy(model)]: a new object with the same parameters. *)
Definition deepcopy (l : nat) : M nat := λ w,
  match models w !! l with
  | Some theta =>
      let l' := fresh (dom (models w)) in
      (Some l', set_models <[l' := theta]> w)
  | None => (None, w)
  end.

(** [logger.warn(msg)]. *)
Definition warn (msg : string) : M () := modify (add_log msg).

(** The parameters of [self._value]. *)
Definition value_parameters : M vec := λ w, (Some (value_theta w), w).

(** ** Line search ([Agent.line_search]) *)

(** [0.5 ** i]. *)
Definition stepfrac (i : nat) : Qc := qc 1 2 ^ i.

(** [x + stepfrac * fullstep]. *)
Definition candidate (x fullstep : vec) (i : nat) : vec :=
  vadd x (vscale (stepfrac i) fullstep).

(** The loop of [line_search] from index [i], with [n] indices left.  The
    rate reaches [line_search] as a numpy scalar, so the quotient of the
    acceptance test does not raise on a zero divisor: a positive improvement
    over [0.0] is [inf], which exceeds every [accept_ratio]. *)
Fixpoint ls_loop (a : agent) (f : vec → M Qc) (x fullstep : vec)
    (expected_improve_rate fval : Qc) (i n : nat) : M (bool * vec) :=
  match n with
  | O => mret (false, x)
  | S n' =>
      let xi := candidate x fullstep i in
      fxi ← f xi;
      let actual_improve := fval - fxi in
      if Qcltb 0 actual_improve then
        let q := xdiv actual_improve (stepfrac i * expected_improve_rate) in
        if xgtb q (accept_ratio a) then mret (true, xi)
        else ls_loop a f x fullstep expected_improve_rate fval (S i) n'
      else ls_loop a f x fullstep expected_improve_rate fval (S i) n'
  end.

Definition line_search (a : agent) (f : vec → M Qc) (x fullstep : vec)
    (expected_improve_rate : Qc) : M (bool * vec) :=
  fval ← f x;
  ls_loop a f x fullstep expected_improve_rate fval 0 (ls_iters a).

(** ** Tensor helpers used by the surrogate loss *)

(** [probs.gather(1, actions)]: the probability of the chosen action in every
    row; an action outside the row is an error. *)
Definition gather (probs : list vec) (actions : list nat) : option vec :=
  mapM (λ pa : vec * nat, pa.1 !! pa.2) (zip probs actions).

(** Element-wise quotient of two tensors. *)
Definition vdiv (u v : vec) : option vec :=
  mapM (λ xy : Qc * Qc, qdiv xy.1 xy.2) (zip u v).

Definition vmul (u v : vec) : vec := zip_with Qcmult u v.

Definition vsum (v : vec) : Qc := foldr Qcplus 0 v.

(** [t.mean()]. *)
Definition mean (v : vec) : option Qc :=
  qdiv (vsum v) (Q2Qc (inject_Z (Z.of_nat (length v)))).

(** [tensor / scalar]. *)
Definition vdiv_scalar (v : vec) (c : Qc) : option vec :=
  mapM (λ x, qdiv x c) v.

(** ** Trajectories and batches *)

(** The four columns [s, a, r, p] of [trajectories]; a batch is a slice of
    them and has the same shape. *)
Record trajectories (St : Type) := Trajectories {
  t_s : list St;
  t_a : list nat;
  t_r : vec;
  t_p : list vec
}.
Arguments Trajectories {St}.
Arguments t_s {St}.
Arguments t_a {St}.
Arguments t_r {St}.
Arguments t_p {St}.

(** What the environment and the sampler contribute to one step of a
    rollout: the state the action was chosen in, the action drawn by
    [multinomial], and the reward returned by [env.step]. *)
Record env_step (St : Type) := EnvStep {
  obs : St;
  action : nat;
  reward : Qc
}.
Arguments EnvStep {St}.
Arguments obs {St}.
Arguments action {St}.
Arguments reward {St}.

(** [l[i:j]]. *)
Definition slice {A} (l : list A) (i j : nat) : list A := take (j - i) (drop i l).

(** [(trajectories[i][index:index+batch_size] for i in xrange(4))]. *)
Definition batch_at {St} (tr : trajectories St) (index batch_size : nat)
  : trajectories St :=
  {| t_s := slice (t_s tr) index (index + batch_size);
     t_a := slice (t_a tr) index (index + batch_size);
     t_r := slice (t_r tr) index (index + batch_size);
     t_p := slice (t_p tr) index (index + batch_size) |}.

(** [xrange(0, stop, step)]; a zero step raises [ValueError]. *)
Definition xrange_step (stop step : nat) : option (list nat) :=
  if decide (step = 0)%nat then None
  else Some ((λ k, k * step)%nat <$> seq 0 ((stop + step - 1) / step)).

(** A [for] loop whose body acts on the world. *)
Fixpoint for_M {A} (body : A → M ()) (l : list A) : M () :=
  match l with
  | [] => mret ()
  | x :: l' => _ ← body x; for_M body l'
  end.

(** [numpy.allclose(pg, 0)]: every entry within the absolute tolerance 1e-8
    of zero (the relative term vanishes against a zero reference). *)
Definition allclose0 (pg : vec) : bool :=
  forallb (λ g, Qcleb (Qcabs g) (qc 1 100000000)) pg.

(** The policy-gradient objective of one batch (the three lines under
    "update policy"): the probabilities of the chosen actions are gathered
    from the stored column [p], the old ones are the same tensor detached. *)
Definition surrogate {St} (b : trajectories St) (advantage : vec)
  : option (vec * vec * Qc) :=
  new_probs ← gather (t_p b) (t_a b);
  let old_probs := new_probs in
  ratio ← vdiv new_probs old_probs;
  obj ← mean (vmul advantage ratio);
  Some (new_probs, old_probs, obj).

(** ** The learner *)

Section learn.
Context {St : Type}.

(** The policy network: parameters and a state to a probability vector. *)
Variable policy_forward : vec → St → vec.
(** The value network, and one step of its optimizer on the value loss
    (parameters, batch states, batch returns to new parameters). *)
Variable value_forward : vec → St → Qc.
Variable value_step : vec → list St → vec → vec.
(** [flatten_grad(self._policy.parameters(), -obj)] for the objective of a
    batch, given the live parameters, the batch and its advantage. *)
Variable grad_neg_obj : vec → trajectories St → vec → vec.
(** The two nested [flatten_grad] calls of [fvp]: the Hessian of
    [get_kl(b_s)] at the live parameters, applied to [v]. *)
Variable kl_hessian_vp : vec → list St → vec → vec.
(** The square root ([numpy.sqrt], and the one inside [std]). *)
Variable sqrt_ : Qc → option Qc.

Variable a : agent.
(** The location of [self._policy]. *)
Variable self_policy : nat.

(** [model(b_s)]. *)
Definition forward (l : nat) (b_s : list St) : M (list vec) :=
  theta ← parameters_to_vector l;
  mret (policy_forward theta <$> b_s).

(** [Agent.act]: the probability vector under the live parameters (the
    action drawn from it is supplied by the rollout). *)
Definition act (s : St) : M vec :=
  theta ← parameters_to_vector self_policy;
  mret (policy_forward theta s).

(** The [while not done] loop of one episode. *)
Fixpoint run_episode (ep : list (env_step St)) (tr : trajectories St)
  : M (trajectories St) :=
  match ep with
  | [] => mret tr
  | st :: ep' =>
      p ← act (obs st);
      run_episode ep'
        {| t_s := t_s tr ++ [obs st];
           t_a := t_a tr ++ [action st];
           t_r := t_r tr ++ [reward st];
           t_p := t_p tr ++ [p] |}
  end.

(** One episode followed by its discount loop. *)
Definition sample_episode (ep : list (env_step St)) (tr : trajectories St)
  : M (trajectories St) :=
  tr' ← run_episode ep tr;
  rs ← lift (discount_episode (reward_gamma a) (length ep) (t_r tr'));
  mret {| t_s := t_s tr'; t_a := t_a tr'; t_r := rs; t_p := t_p tr' |}.

(** [for _ in xrange(sample_episodes)]. *)
Fixpoint sample (episodes : list (list (env_step St))) (tr : trajectories St)
  : M (trajectories St) :=
  match episodes with
  | [] => mret tr
  | ep :: rest => tr' ← sample_episode ep tr; sample rest tr'
  end.

(** [Agent.get_loss]. *)
Definition get_loss (b : trajectories St) (advantage : vec) (theta : vec) : M Qc :=
  probs ← forward self_policy (t_s b);
  prob_old ← lift (gather probs (t_a b));
  new_model ← deepcopy self_policy;
  _ ← vector_to_parameters theta new_model;
  probs' ← forward new_model (t_s b);
  prob_new ← lift (gather probs' (t_a b));
  ratio ← lift (vdiv prob_new prob_old);
  m ← lift (mean (vmul ratio advantage));
  mret (- m).

(** [Agent.fvp] at given live parameters. *)
Definition fvp (theta : vec) (b_s : list St) (v : vec) : vec :=
  vadd (kl_hessian_vp theta b_s v) (vscale (cg_damping a) v).

(** [t.std()] (with Bessel's correction) and the standardisation
    [(advantage - advantage.mean()) / advantage.std()]. *)
Definition variance (v : vec) : option Qc :=
  m ← mean v;
  qdiv (vsum ((λ x, (x - m) * (x - m)) <$> v))
       (Q2Qc (inject_Z (Z.of_nat (length v) - 1))).

Definition std (v : vec) : option Qc := var ← variance v; sqrt_ var.

Definition standardize (v : vec) : option vec :=
  m ← mean v;
  s ← std v;
  vdiv_scalar ((λ x, x - m) <$> v) s.

(** The last three statements of the batch body: read the live parameters,
    search, and write the result back on success. *)
Definition search_and_apply (b : trajectories St) (advantage fullstep : vec)
    (expected_improve_rate : Qc) : M () :=
  old_theta ← parameters_to_vector self_policy;
  r ← line_search a (get_loss b advantage) old_theta fullstep expected_improve_rate;
  let '(success, new_theta) := (r : bool * vec) in
  if success then vector_to_parameters new_theta self_policy else mret ().

(** The [else] branch of the zero-gradient test.  [self.fvp] reads the live
    parameters at every call; nothing writes them before the search, so
    they are read once here.  A zero [max_kl] or a zero [lm] ends the
    model's run at that quotient; the program raises on the first (a
    quotient of Python floats) and goes on with [inf]/[nan] on the second
    (numpy and tensor division), which is not followed here. *)
Definition policy_update (b : trajectories St) (advantage pg : vec) : M () :=
  theta ← parameters_to_vector self_policy;
  let op := fvp theta (t_s b) in
  let run := cg_run a op (vneg pg) in
  _ ← modify (add_fvp_calls run.1);
  stepdir ← lift (cg_x <$> run.2);
  _ ← modify (add_fvp_calls 1);
  let shs := qc 1 2 * dot stepdir (op stepdir) in
  q ← lift (qdiv shs (max_kl a));
  lm ← lift (sqrt_ q);
  fullstep ← lift (vdiv_scalar stepdir lm);
  expected_improve_rate ← lift (qdiv (- dot pg stepdir) lm);
  search_and_apply b advantage fullstep expected_improve_rate.

Definition zero_gradient_warning : string := "got zero gradient. not updating".

(** The body of the batch loop, for the batch [b]: baseline and advantage,
    one optimizer step on the value network, the objective and its gradient
    (taken with respect to the live parameters), then the zero-gradient
    test.  The standardisation is tensor arithmetic and never raises: an
    advantage that is not a vector of finite numbers ([nan] after a
    division by a zero or undefined standard deviation) is carried to its
    first use, the objective, and the model's run ends there, after the
    value step; the program goes on with the update on [nan], which is not
    followed here. *)
Definition learn_batch (b : trajectories St) : M () :=
  vtheta ← value_parameters;
  let baseline := value_forward vtheta <$> t_s b in
  let standardized := standardize (vsub (t_r b) baseline) in
  _ ← modify (set_value_theta (value_step vtheta (t_s b) (t_r b)));
  advantage ← lift standardized;
  _ ← lift (surrogate b advantage);
  theta ← parameters_to_vector self_policy;
  let pg := grad_neg_obj theta b advantage in
  if allclose0 pg then warn zero_gradient_warning
  else policy_update b advantage pg.

(** [for index in xrange(0, len(trajectories[0]), batch_size)]. *)
Definition train_batches (tr : trajectories St) (batch_size : nat) : M () :=
  idx ← lift (xrange_step (length (t_s tr)) batch_size);
  for_M (λ index, learn_batch (batch_at tr index batch_size)) idx.

(** One iteration of [Agent.learn]: [episodes] are the rollouts of this
    iteration. *)
Definition learn_iter (episodes : list (list (env_step St))) (batch_size : nat)
  : M () :=
  tr ← sample episodes (Trajectories [] [] [] []);
  train_batches tr batch_size.

(** [Agent.learn], one list of rollouts per iteration. *)
Definition learn (rollouts : list (list (list (env_step St)))) (batch_size : nat)
  : M () :=
  for_M (λ episodes, learn_iter episodes batch_size) rollouts.
End learn.

(** ** Standardisation in exact arithmetic

    The standard deviation needs a square root, which the rationals do not
    have.  The three lines that compute and standardise the advantage are
    read once more over the real numbers, where [sqrt] is the true root; the
    conventions are the same.  This is the exact-arithmetic reading of the
    three lines; the float32 arithmetic the program runs is [f32] below. *)

Module real.
Local Open Scope R_scope.

Definition rdiv (x y : R) : option R :=
  if Req_dec_T y 0 then None else Some (x / y).

Definition rsum (v : list R) : R := foldr Rplus 0 v.

(** [t.mean()]. *)
Definition mean (v : list R) : option R := rdiv (rsum v) (INR (length v)).

(** [t.std()]: the root of the sum of squared deviations over [n - 1]. *)
Definition variance (v : list R) : option R :=
  m ← mean v;
  rdiv (rsum ((λ x, (x - m) * (x - m)) <$> v)) (INR (length v) - 1).

Definition std (v : list R) : option R := sqrt <$> variance v.

(** [advantage = b_r - baseline.data]. *)
Definition advantage (b_r baseline : list R) : list R := zip_with Rminus b_r baseline.

(** [(advantage - advantage.mean()) / advantage.std()]. *)
Definition standardize (v : list R) : option (list R) :=
  m ← mean v;
  s ← std v;
  mapM (λ x, rdiv x s) ((λ x, x - m) <$> v).

End real.

(** ** Standardisation in float32

    The same three lines on IEEE numbers: the tensors are binary32; [mean]
    and [std] are reduced by torch in double precision and returned as
    Python floats, which the tensor operations [tensor - float] and
    [tensor / float] round to binary32 before they work element by element.
    A division by zero does not raise here: it gives [inf] or [nan]. *)

Module f32.
Local Open Scope Z_scope.

(** A number in the binary format of precision [prec]. *)
Definition round_to (prec emax : Z) (x : spec_float) : spec_float :=
  match x with
  | S754_finite s m e =>
      binary_normalize prec emax (if s then Z.neg m else Z.pos m) e s
  | _ => x
  end.

Definition single (x : spec_float) : spec_float := round_to 24 128 x.

(** The integer [n] as a float32 and as a double. *)
Definition of_Z (n : Z) : spec_float := binary_normalize 24 128 n 0 false.
Definition double_of_Z (n : Z) : spec_float := binary_normalize 53 1024 n 0 false.

(** [b_r - baseline.data]. *)
Definition advantage (b_r baseline : list spec_float) : list spec_float :=
  zip_with (SFsub 24 128) b_r baseline.

(** [t.mean()] and [t.std()], reduced in double precision. *)
Definition mean (v : list spec_float) : spec_float :=
  SFdiv 53 1024 (foldl (SFadd 53 1024) (S754_zero false) v)
    (double_of_Z (Z.of_nat (length v))).

Definition variance (v : list spec_float) : spec_float :=
  let m := mean v in
  SFdiv 53 1024
    (foldl (λ acc x, SFadd 53 1024 acc
                       (SFmul 53 1024 (SFsub 53 1024 x m) (SFsub 53 1024 x m)))
       (S754_zero false) v)
    (double_of_Z (Z.of_nat (length v) - 1)).

Definition std (v : list spec_float) : spec_float := SFsqrt 53 1024 (variance v).

(** [(advantage - advantage.mean()) / advantage.std()]. *)
Definition standardize (v : list spec_float) : list spec_float :=
  let m := single (mean v) in
  let s := single (std v) in
  (λ x, SFdiv 24 128 (SFsub 24 128 x m) s) <$> v.

(** The rational a finite float stands for (0 for the others). *)
Definition value (x : spec_float) : Q :=
  match x with
  | S754_finite s m e =>
      let n := if s then Z.neg m else Z.pos m in
      if 0 <=? e then inject_Z (n * 2 ^ e) else n # Z.to_pos (2 ^ (- e))
  | _ => 0%Q
  end.

Definition is_finite (x : spec_float) : bool :=
  match x with S754_finite _ _ _ | S754_zero _ => true | _ => false end.
End f32.

(** ** A one-parameter policy to run the learner on *)

Module toy.

(** Two actions with probabilities [t] and [1 - t], the same in every state. *)
Definition policy (theta : vec) (s : unit) : vec :=
  match theta with
  | [t] => [t; 1 - t]
  | _ => []
  end.

(** A value network that predicts 0 and is not moved by its optimizer. *)
Definition value (v : vec) (s : unit) : Qc := 0.
Definition value_step (v : vec) (b_s : list unit) (b_r : vec) : vec := v.

(** d p(a)/dt: +1 for the first action, -1 for the second. *)
Definition dprob (act : nat) : Qc :=
  match act with O => 1 | _ => - 1 end.

(** The gradient of minus mean(advantage * p(a) / old) in [t]. *)
Definition grad (theta : vec) (b : trajectories unit) (advantage : vec) : vec :=
  default [0]
    (old ← gather (t_p b) (t_a b);
     terms ← vdiv (vmul advantage (dprob <$> t_a b)) old;
     m ← mean terms;
     Some [- m]).

(** The Fisher information of the two-point distribution is 1/(t(1-t)). *)
Definition kl_hessian_vp (theta : vec) (b_s : list unit) (v : vec) : vec :=
  match theta with
  | [t] => default v (vdiv_scalar v (t * (1 - t)))
  | _ => v
  end.

(** The square root of a fraction whose numerator and denominator are
    squares; no answer otherwise. *)
Definition sqrt_exact (q : Qc) : option Qc :=
  let n := Qnum q in
  let d := Zpos (Qden q) in
  if ((0 <=? n) && (Z.sqrt n * Z.sqrt n =? n) && (Z.sqrt d * Z.sqrt d =? d))%Z
  then Some (Q2Qc (Z.sqrt n # Z.to_pos (Z.sqrt d)))
  else None.

(** A square root that always answers on non-negative numbers, as
    [numpy.sqrt] does, and is not exact: six steps of Newton's iteration
    from (1 + q)/2. *)
Definition sqrt_newton (q : Qc) : option Qc :=
  if Qcltb q 0 then None
  else Some (Nat.iter 6 (λ x, (x + q / x) / qc 2 1) ((1 + q) / qc 2 1)).

(** The default configuration, with a larger damping. *)
Definition config : agent :=
  {| accept_ratio := qc 9 10;
     reward_gamma := qc 9 10;
     cg_iters := 10;
     cg_tol := qc 1 10000000000;
     cg_damping := qc 4 1;
     max_kl := qc 1 100;
     ls_iters := 10 |}.

(** The live policy is object 0 and starts at t = 1/2. *)
Definition self_policy : nat := 0.
Definition theta0 : vec := [qc 1 2].
Definition w0 : world :=
  {| models := {[self_policy := theta0]}; value_theta := []; log := []; fvp_calls := 0 |}.

(** Six episodes of one step each. *)
Definition episodes : list (list (env_step unit)) :=
  [[EnvStep () 0 (qc 3 1)]; [EnvStep () 1 (qc (-1) 1)]; [EnvStep () 0 1];
   [EnvStep () 0 (qc 3 1)]; [EnvStep () 1 (qc (-1) 1)]; [EnvStep () 0 1]].

Definition collected : trajectories unit :=
  {| t_s := [(); (); (); (); (); ()];
     t_a := [0; 1; 0; 0; 1; 0]%nat;
     t_r := [qc 3 1; qc (-1) 1; 1; qc 3 1; qc (-1) 1; 1];
     t_p := replicate 6 [qc 1 2; qc 1 2] |}.

(** A batch of the toy run on which the policy gradient vanishes: the same
    action three times. *)
Definition flat_batch : trajectories unit :=
  {| t_s := [(); (); ()];
     t_a := [0; 0; 0]%nat;
     t_r := [qc 3 1; qc (-1) 1; 1];
     t_p := replicate 3 [qc 1 2; qc 1 2] |}.

End toy.

(** Equality of states is decidable, so closed facts can be checked by
    evaluation. *)
Global Instance cg_state_eq_dec : EqDecision cg_state.
Proof. solve_decision. Defined.

Global Instance world_eq_dec : EqDecision world.
Proof. solve_decision. Defined.
Global Instance trajectories_eq_dec `{EqDecision St} : EqDecision (trajectories St).
Proof. solve_decision. Defined.

(** * Results *)

(** ** Numbers *)

Ltac qc_decide := apply (bool_decide_unpack _); vm_compute; exact I.

Lemma Qcltb_lt (x y : Qc) : Qcltb x y = true ↔ x < y.
Proof.
  unfold Qcltb. rewrite Qclt_alt. destruct (x ?= y); split; congruence.
Qed.

Lemma Qcltb_ge (x y : Qc) : Qcltb x y = false ↔ y ≤ x.
Proof.
  rewrite Qcle_ngt, <- Qcltb_lt. destruct (Qcltb x y); split; congruence.
Qed.

Lemma Qceqb_eq (x y : Qc) : Qceqb x y = true ↔ x = y.
Proof.
  unfold Qceqb. rewrite Qceq_alt. destruct (x ?= y); split; congruence.
Qed.

Lemma qdiv_Some (x y : Qc) : y ≠ 0 → qdiv x y = Some (x / y).
Proof.
  intros Hy. unfold qdiv. destruct (Qceqb y 0) eqn:E; [|done].
  by apply Qceqb_eq in E.
Qed.

Lemma qdiv_None (x y : Qc) : qdiv x y = None ↔ y = 0.
Proof.
  unfold qdiv. destruct (Qceqb y 0) eqn:E.
  - apply Qceqb_eq in E. done.
  - split; [done|]. intros ->. by rewrite (proj2 (Qceqb_eq 0 0)) in E.
Qed.

Lemma Qc_neq_Q (x y : Qc) : x ≠ y ↔ ¬ (this x == this y)%Q.
Proof. split; intros H E; apply H; [by apply Qc_is_canon | by subst]. Qed.

Lemma Qc_eq_Q (x y : Qc) : x = y ↔ (this x == this y)%Q.
Proof. split; [by intros -> | apply Qc_is_canon]. Qed.

(** Turns a goal over [Qc] into the same goal over [Q]. *)
Ltac qc2q :=
  rewrite ?Qc_neq_Q, ?Qc_eq_Q in *;
  unfold Qclt, Qcle, Qcdiv, Qcminus, Qcinv, Qcplus, Qcmult, Qcopp, Q2Qc in *;
  cbn [this] in *;
  repeat (setoid_rewrite Qred_correct);
  repeat match goal with H : _ |- _ => setoid_rewrite Qred_correct in H end.

(** ** Vectors *)

Lemma dot_comm (u v : vec) : dot u v = dot v u.
Proof.
  unfold dot. revert v. induction u as [|x u IH]; intros [|y v]; simpl; [done..|].
  rewrite IH. ring.
Qed.

Lemma dot_vscale_l (c : Qc) (u w : vec) : dot (vscale c u) w = c * dot u w.
Proof.
  unfold dot, vscale. revert w.
  induction u as [|x u IH]; intros [|y w]; simpl; [ring..|].
  rewrite IH. ring.
Qed.

Lemma dot_vadd_l (u v w : vec) :
  length u = length v → dot (vadd u v) w = dot u w + dot v w.
Proof.
  unfold dot, vadd. revert v w.
  induction u as [|x u IH]; intros [|y v] [|z w] [=]; simpl; [ring..|].
  rewrite IH by done. ring.
Qed.

Lemma dot_vsub_l (u v w : vec) :
  length u = length v → dot (vsub u v) w = dot u w - dot v w.
Proof.
  unfold dot, vsub. revert v w.
  induction u as [|x u IH]; intros [|y v] [|z w] [=]; simpl; [ring..|].
  rewrite IH by done. ring.
Qed.

Lemma dot_zeros_l (n : nat) (w : vec) : dot (replicate n 0) w = 0.
Proof.
  unfold dot. revert w. induction n as [|n IH]; intros [|z w]; simpl; [done..|].
  rewrite IH. ring.
Qed.

Lemma vscale_zero (v : vec) : vscale 0 v = replicate (length v) 0.
Proof.
  unfold vscale. induction v as [|x v IH]; simpl; [done|].
  rewrite <- IH. f_equal. ring.
Qed.

Lemma vsub_zeros (v : vec) : vsub v (replicate (length v) 0) = v.
Proof.
  unfold vsub. induction v as [|x v IH]; simpl; [done|].
  rewrite IH. f_equal. ring.
Qed.

Lemma vadd_zeros_l (v : vec) : vadd (replicate (length v) 0) v = v.
Proof.
  unfold vadd. induction v as [|x v IH]; simpl; [done|].
  rewrite IH. f_equal. ring.
Qed.

Lemma vsub_vadd (u v w : vec) : vsub (vsub u v) w = vsub u (vadd v w).
Proof.
  unfold vsub, vadd. revert v w.
  induction u as [|x u IH]; intros [|y v] [|z w]; simpl; [done..|].
  rewrite IH. f_equal. ring.
Qed.

Lemma length_vadd (u v : vec) : length u = length v → length (vadd u v) = length u.
Proof. intros H. unfold vadd. rewrite length_zip_with. lia. Qed.

Lemma length_vsub (u v : vec) : length u = length v → length (vsub u v) = length u.
Proof. intros H. unfold vsub. rewrite length_zip_with. lia. Qed.

Lemma length_vscale (c : Qc) (v : vec) : length (vscale c v) = length v.
Proof. unfold vscale. by rewrite length_fmap. Qed.

(** ** Conjugate gradient *)

Definition A_spec : list vec := [[qc 3 1; qc 2 1]; [qc 2 1; qc 6 1]].
Definition b_spec : vec := [qc 2 1; qc (-8) 1].

Lemma cg_loop_unfold fvp tol n s :
  cg_loop fvp tol (S n) s =
  match cg_iter fvp s with
  | None => (1%nat, None)
  | Some s' =>
      if Qcltb (cg_rdotr s') tol then (1%nat, Some s')
      else let '(k, o) := cg_loop fvp tol n s' in (S k, o)
  end.
Proof. done. Qed.

(** The state after the first iteration on the example system. *)
Definition cg_example_s1 : cg_state :=
  {| cg_x := [qc 34 83; qc (-136) 83];
     cg_r := [qc 336 83; qc 84 83];
     cg_p := [qc 31416 6889; qc (-7140) 6889];
     cg_rdotr := qc 119952 6889 |}.

(** The state after the second iteration: the residual vanishes. *)
Definition cg_example_s2 : cg_state :=
  {| cg_x := [qc 2 1; qc (-2) 1];
     cg_r := [0; 0];
     cg_p := [0; 0];
     cg_rdotr := 0 |}.

Lemma cg_example_step1 :
  cg_iter (matvec A_spec) (cg_init b_spec) = Some cg_example_s1.
Proof. qc_decide. Qed.

Lemma cg_example_step2 :
  cg_iter (matvec A_spec) cg_example_s1 = Some cg_example_s2.
Proof. qc_decide. Qed.

(** Two vectors agree within [eps], entry by entry. *)
Definition within (eps : Qc) (u v : vec) : Prop :=
  Forall2 (λ x y, Qcabs (x - y) ≤ eps) u v.

(** C1. On the symmetric positive-definite system A = [[3,2],[2,6]],
    b = [2,-8], with ten iterations allowed (two are enough) and a positive
    tolerance of at most 1e-6, [cg] returns [2,-2] exactly in exact
    arithmetic, hence a vector within 1e-6 of it: the second iteration
    reaches the solution and the tolerance test leaves the loop. *)
Theorem cg_solves_example (a : agent) :
  (2 ≤ cg_iters a)%nat → 0 < cg_tol a → cg_tol a ≤ qc 1 1000000 →
  ∃ x,
    cg a (matvec A_spec) b_spec = Some x ∧
    x = [qc 2 1; qc (-2) 1] ∧
    within (qc 1 1000000) x [qc 2 1; qc (-2) 1] ∧
    matvec A_spec x = b_spec ∧
    cg_calls a (matvec A_spec) b_spec = 2%nat.
Proof.
  intros Hn Hpos Hle. exists [qc 2 1; qc (-2) 1].
  unfold cg, cg_calls, cg_run.
  destruct (cg_iters a) as [|[|n]]; [lia | lia |].
  rewrite cg_loop_unfold, cg_example_step1.
  assert (Qcltb (cg_rdotr cg_example_s1) (cg_tol a) = false) as ->.
  { apply Qcltb_ge. etrans; [exact Hle|]. qc_decide. }
  rewrite cg_loop_unfold, cg_example_step2.
  assert (Qcltb (cg_rdotr cg_example_s2) (cg_tol a) = true) as ->.
  { by apply Qcltb_lt. }
  split_and!; [done | done | | qc_decide | done].
  repeat constructor; qc_decide.
Qed.

Lemma cg_solves_example_witness :
  ((2 ≤ cg_iters default_agent)%nat ∧
   0 < cg_tol default_agent ∧ cg_tol default_agent ≤ qc 1 1000000) ∧
  ∃ x,
    cg default_agent (matvec A_spec) b_spec = Some x ∧
    x = [qc 2 1; qc (-2) 1] ∧
    within (qc 1 1000000) x [qc 2 1; qc (-2) 1] ∧
    matvec A_spec x = b_spec ∧
    cg_calls default_agent (matvec A_spec) b_spec = 2%nat.
Proof.
  assert ((2 ≤ cg_iters default_agent)%nat ∧
          0 < cg_tol default_agent ∧ cg_tol default_agent ≤ qc 1 1000000)
    as Hcfg.
  { split_and!; [simpl; lia | qc_decide | qc_decide]. }
  split; [exact Hcfg|].
  destruct Hcfg as (Hn & Hpos & Hle).
  exact (cg_solves_example default_agent Hn Hpos Hle).
Defined.

(** With a tolerance of zero the loop is not left after the second
    iteration, and the third divides 0 by 0. *)
Lemma cg_example_zero_tolerance :
  cg {| accept_ratio := qc 9 10; reward_gamma := qc 9 10; cg_iters := 10;
        cg_tol := 0; cg_damping := qc 1 1000; max_kl := qc 1 100;
        ls_iters := 10 |} (matvec A_spec) b_spec = None.
Proof. qc_decide. Qed.

(** ** Termination of conjugate gradient, and what decreases *)

Lemma cg_loop_spec fvp tol n : ∀ s,
  let k := (cg_loop fvp tol n s).1 in
  (k ≤ n)%nat ∧
  cg_iterate fvp k s = (cg_loop fvp tol n s).2 ∧
  (∀ s', (cg_loop fvp tol n s).2 = Some s' → (k < n)%nat → cg_rdotr s' < tol) ∧
  (∀ j sj, (0 < j < k)%nat → cg_iterate fvp j s = Some sj → tol ≤ cg_rdotr sj).
Proof.
  induction n as [|n IH]; intros s.
  - simpl. split_and!; [lia | done | lia | lia].
  - rewrite cg_loop_unfold. destruct (cg_iter fvp s) as [s1|] eqn:Hiter.
    + destruct (Qcltb (cg_rdotr s1) tol) eqn:Htest.
      * simpl. rewrite Hiter. simpl. split_and!; [lia | done | | lia].
        intros s' [= <-] _. by apply Qcltb_lt.
      * specialize (IH s1). destruct (cg_loop fvp tol n s1) as [k o].
        simpl in *. rewrite Hiter. simpl.
        destruct IH as (Hk & Hit & Hexit & Hbefore). split_and!; [lia | done | |].
        -- intros s' Ho Hlt. apply Hexit; [done | lia].
        -- intros [|j] sj Hj; [lia|]. simpl. rewrite Hiter. simpl.
           destruct j as [|j].
           ++ intros [= <-]. by apply Qcltb_ge.
           ++ apply Hbefore. lia.
    + simpl. rewrite Hiter. simpl. split_and!; [lia | done | done | lia].
Qed.

(** An operator on vectors of length [n] that is linear, symmetric and
    positive definite. *)
Definition spd (n : nat) (op : vec → vec) : Prop :=
  (∀ v, length v = n → length (op v) = n) ∧
  (∀ u v, length u = n → length v = n → op (vadd u v) = vadd (op u) (op v)) ∧
  (∀ c v, length v = n → op (vscale c v) = vscale c (op v)) ∧
  (∀ u v, length u = n → length v = n → dot u (op v) = dot (op u) v) ∧
  (∀ v, length v = n → v ≠ replicate n 0 → 0 < dot v (op v)).

(** The residual never grows from one iteration of the solver to the next. *)
Definition residual_nonincreasing (fvp : vec → vec) (b : vec) : Prop :=
  ∀ k s s',
    cg_iterate fvp k (cg_init b) = Some s → cg_iter fvp s = Some s' →
    cg_rdotr s' ≤ cg_rdotr s.

(** A stiff diagonal system. *)
Definition A_stiff : list vec := [[1; 0]; [0; qc 100 1]].
Definition b_stiff : vec := [qc 10 1; 1].

Lemma length_2_inv {A} (v : list A) : length v = 2%nat → ∃ x y, v = [x; y].
Proof. destruct v as [|x [|y [|]]]; intros [=]. eauto. Qed.

Lemma A_stiff_spd : spd 2 (matvec A_stiff).
Proof.
  unfold spd. split_and!.
  - done.
  - intros u v (u1 & u2 & ->)%length_2_inv (v1 & v2 & ->)%length_2_inv.
    unfold matvec, A_stiff, vadd, dot. simpl. f_equal; [|f_equal]; ring.
  - intros c v (v1 & v2 & ->)%length_2_inv.
    unfold matvec, A_stiff, vscale, dot. simpl. f_equal; [|f_equal]; ring.
  - intros u v (u1 & u2 & ->)%length_2_inv (v1 & v2 & ->)%length_2_inv.
    unfold matvec, A_stiff, dot. simpl. ring.
  - intros v (v1 & v2 & ->)%length_2_inv Hv.
    assert (v1 ≠ 0 ∨ v2 ≠ 0) as Hnz.
    { destruct (decide (v1 = 0)) as [->|]; [|by left].
      destruct (decide (v2 = 0)) as [->|]; [|by right]. done. }
    unfold matvec, A_stiff, dot, qc. simpl. clear Hv. qc2q.
    generalize dependent (this v1). generalize dependent (this v2).
    intros y x [?|?]; nra.
Qed.

(** On the stiff system the residual grows in the first iteration: r·r goes
    from 101 to 2474.7525, and the solver (default settings) goes on to a
    second iteration. *)
Lemma cg_residual_can_grow :
  spd 2 (matvec A_stiff) ∧
  ¬ residual_nonincreasing (matvec A_stiff) b_stiff ∧
  cg_calls default_agent (matvec A_stiff) b_stiff = 2%nat.
Proof.
  split_and!; [apply A_stiff_spd | | qc_decide].
  intros Hmono.
  destruct (cg_iter (matvec A_stiff) (cg_init b_stiff)) as [s1|] eqn:H1;
    [|by vm_compute in H1].
  specialize (Hmono 0%nat (cg_init b_stiff) s1 eq_refl H1).
  apply Qcle_ngt in Hmono. apply Hmono.
  assert (Some s1 = Some {| cg_x := [qc 101 20; qc 101 200];
                            cg_r := [qc 99 20; qc (-99) 2];
                            cg_p := [qc 9999 40; qc (-9999) 400];
                            cg_rdotr := qc 989901 400 |}) as [= ->].
  { rewrite <- H1. qc_decide. }
  qc_decide.
Qed.

(** The quadratic form whose minimiser solves [op x = b]. *)
Definition quadratic (op : vec → vec) (b x : vec) : Qc :=
  dot x (op x) / (1 + 1) - dot b x.

Section cg_spd.
Variables (n : nat) (op : vec → vec) (b : vec).
Hypothesis Hspd : spd n op.
Hypothesis Hb : length b = n.

(** What the loop keeps true: the shapes, [r = b - op x], the cached
    [r·r], and [p·r = r·r]. *)
Definition cg_inv (s : cg_state) : Prop :=
  length (cg_x s) = n ∧ length (cg_r s) = n ∧ length (cg_p s) = n ∧
  cg_r s = vsub b (op (cg_x s)) ∧
  cg_rdotr s = dot (cg_r s) (cg_r s) ∧
  dot (cg_p s) (cg_r s) = dot (cg_r s) (cg_r s).

Lemma op_zeros : op (replicate n 0) = replicate n 0.
Proof.
  destruct Hspd as (Hlen & _ & Hscale & _).
  pose proof (Hscale 0 (replicate n 0) (length_replicate _ _)) as H.
  rewrite !vscale_zero, length_replicate, Hlen in H by apply length_replicate.
  done.
Qed.

Lemma cg_inv_init : cg_inv (cg_init b).
Proof.
  unfold cg_inv, cg_init, zeros_like. simpl. rewrite Hb, length_replicate.
  split_and!; [done..| |done|done].
  rewrite op_zeros, <- Hb. by rewrite vsub_zeros.
Qed.

Lemma cg_iter_inv (s s' : cg_state) :
  cg_inv s → cg_iter op s = Some s' →
  cg_inv s' ∧ quadratic op b (cg_x s') ≤ quadratic op b (cg_x s).
Proof.
  intros (Hx & Hr & Hp & Hres & Hrr & Hpr) Hiter.
  destruct Hspd as (Hlen & Hadd & Hscale & Hsym & Hpos).
  unfold cg_iter in Hiter.
  destruct s as [x r p rdotr]. simpl in *.
  set (z := op p) in *.
  destruct (qdiv rdotr (dot p z)) as [v|] eqn:Hv; [|done]. simpl in Hiter.
  destruct (qdiv _ rdotr) as [mu|] eqn:Hmu; [|done]. simpl in Hiter.
  injection Hiter as <-. simpl.
  assert (dot p z ≠ 0) as Hpz.
  { intros H0. apply qdiv_None with (x := rdotr) in H0. congruence. }
  rewrite qdiv_Some in Hv by done. injection Hv as Hv.
  assert (v * dot p z = rdotr) as Hvpz.
  { rewrite <- Hv. field. done. }
  assert (length z = n) as Hz by (by apply Hlen).
  assert (op (vadd x (vscale v p)) = vadd (op x) (vscale v z)) as Hopx.
  { rewrite Hadd, Hscale by (by rewrite ?length_vscale). done. }
  assert (dot p (vsub r (vscale v z)) = 0) as Hconj.
  { rewrite dot_comm, dot_vsub_l, dot_vscale_l by (by rewrite length_vscale, Hr, Hz).
    rewrite (dot_comm r p), (dot_comm z p), Hpr, <- Hrr, Hvpz. ring. }
  assert (length (vsub r (vscale v z)) = n) as Hr'.
  { rewrite length_vsub; rewrite ?length_vscale; congruence. }
  split.
  - unfold cg_inv. simpl. split_and!.
    + rewrite length_vadd; rewrite ?length_vscale; congruence.
    + done.
    + rewrite length_vadd; rewrite ?length_vscale; congruence.
    + by rewrite Hopx, Hres, vsub_vadd.
    + done.
    + rewrite dot_vadd_l, dot_vscale_l by (rewrite length_vscale; congruence).
      rewrite Hconj. ring.
  - unfold quadratic. rewrite Hopx.
    assert (dot x z = dot p (op x)) as Hxz.
    { unfold z. rewrite Hsym by done. apply dot_comm. }
    assert (dot p r = dot p b - dot p (op x)) as Hprb.
    { rewrite Hres, dot_comm, dot_vsub_l by (rewrite Hb; symmetry; by apply Hlen).
      by rewrite (dot_comm b p), (dot_comm (op x) p). }
    assert (dot (vadd x (vscale v p)) (vadd (op x) (vscale v z)) =
            dot x (op x) + v * dot x z + v * dot p (op x) + v * v * dot p z) as Hquad.
    { rewrite dot_vadd_l, dot_vscale_l by (by rewrite length_vscale, Hx).
      rewrite (dot_comm x), (dot_comm p).
      rewrite !dot_vadd_l, !dot_vscale_l
        by (rewrite length_vscale, Hz; by apply Hlen).
      rewrite (dot_comm (op x) x), (dot_comm z x), (dot_comm (op x) p), (dot_comm z p).
      ring. }
    assert (dot b (vadd x (vscale v p)) = dot b x + v * dot p b) as Hlin.
    { rewrite dot_comm, dot_vadd_l, dot_vscale_l by (by rewrite length_vscale, Hx).
      by rewrite (dot_comm x b). }
    rewrite Hquad, Hlin, Hxz.
    assert (0 < dot p z) as Hpzpos.
    { apply Hpos; [done|]. intros ->. apply Hpz. apply dot_zeros_l. }
    assert (dot p b = dot p (op x) + v * dot p z) as Hpb.
    { rewrite Hvpz, Hrr, <- Hpr, Hprb. ring. }
    rewrite Hpb.
    set (q := dot x (op x)) in *. set (d := dot p (op x)) in *.
    set (e := dot b x) in *. set (t := dot p z) in *.
    clearbody q d e t. clear - Hpzpos.
    assert (q / (1 + 1) - e - (v * v * t) / (1 + 1) =
            (q + v * d + v * d + v * v * t) / (1 + 1) - (e + v * (d + v * t))) as <-
      by (field; done).
    qc2q. generalize dependent (this q). generalize dependent (this e).
    generalize dependent (this v). generalize dependent (this t).
    intros t' Ht v' e' q'.
    assert (0 <= v' * v' * t')%Q as Hsq by nra.
    assert (/ (1 + 1) == 1 # 2)%Q as -> by reflexivity.
    lra.
Qed.
End cg_spd.

Lemma cg_iterate_inv (n : nat) (op : vec → vec) (b : vec) :
  spd n op → length b = n →
  ∀ k s s', cg_inv n op b s → cg_iterate op k s = Some s' → cg_inv n op b s'.
Proof.
  intros Hspd Hb. induction k as [|k IH]; intros s s' Hinv; simpl.
  - by intros [= <-].
  - destruct (cg_iter op s) as [s1|] eqn:Hiter; [|done]. simpl.
    apply IH. by eapply cg_iter_inv.
Qed.

(** C8 (as amended). Whatever the operator and the target, [cg] applies the
    operator at most [cg_iters] times; the state it returns is the one reached
    by that many iterations of the body; it stops before [cg_iters] only on a
    residual product strictly below [cg_tol], and no earlier iteration reached
    one.  For a symmetric positive-definite operator the quadratic objective
    x·Ax/2 - b·x does not increase from one iteration to the next.  (The
    residual itself can grow, see [cg_residual_can_grow].) *)
Theorem cg_termination (a : agent) (fvp : vec → vec) (b : vec) :
  let k := cg_calls a fvp b in
  (k ≤ cg_iters a)%nat ∧
  cg a fvp b = cg_x <$> cg_iterate fvp k (cg_init b) ∧
  (∀ s, cg_iterate fvp k (cg_init b) = Some s →
        (k < cg_iters a)%nat → cg_rdotr s < cg_tol a) ∧
  (∀ j sj, (0 < j < k)%nat → cg_iterate fvp j (cg_init b) = Some sj →
           cg_tol a ≤ cg_rdotr sj) ∧
  (∀ n, spd n fvp → length b = n →
        ∀ j s s', cg_iterate fvp j (cg_init b) = Some s → cg_iter fvp s = Some s' →
                  quadratic fvp b (cg_x s') ≤ quadratic fvp b (cg_x s)).
Proof.
  unfold cg, cg_calls, cg_run.
  destruct (cg_loop_spec fvp (cg_tol a) (cg_iters a) (cg_init b))
    as (Hk & Hit & Hexit & Hbefore).
  split_and!; [done | by rewrite Hit | | done |].
  - intros s Hs. apply Hexit. by rewrite <- Hit.
  - intros n Hspd Hb j s s' Hs Hiter.
    eapply cg_iter_inv; [done | done | | done].
    eapply cg_iterate_inv; [done | done | | done].
    by apply cg_inv_init.
Qed.

(** On the stiff system the first iteration lowers the quadratic objective
    (from 0 to -10201/400) while the residual grows. *)
Lemma cg_stiff_first_iteration :
  (λ s, (quadratic (matvec A_stiff) b_stiff (cg_x s), cg_rdotr s)) <$>
    [cg_init b_stiff] ++
    option_list (cg_iter (matvec A_stiff) (cg_init b_stiff)) =
  [(0, qc 101 1); (qc (-10201) 400, qc 989901 400)].
Proof. qc_decide. Qed.

(** ** Discounted returns *)

(** The returns of one episode, last step first: each is the reward plus
    gamma times the return that follows, nothing following the last. *)
Definition returns (gamma : Qc) (ep : list Qc) : list Qc :=
  foldr (λ r acc, (r + default 0 (head acc) * gamma) :: acc) [] ep.

Lemma py_back_app {A} (l1 l2 : list A) (x : A) :
  py_back (l1 ++ x :: l2) (S (length l2)) = Some x.
Proof.
  unfold py_back. rewrite length_app. simpl.
  rewrite decide_True by lia.
  apply list_lookup_middle. lia.
Qed.

Lemma py_set_back_app {A} (l1 l2 : list A) (x y : A) :
  py_set_back (l1 ++ x :: l2) (S (length l2)) y = Some (l1 ++ y :: l2).
Proof.
  unfold py_set_back. rewrite length_app. simpl.
  rewrite decide_True by lia. f_equal.
  replace (length l1 + S (length l2) - S (length l2))%nat with (length l1 + 0)%nat by lia.
  by rewrite insert_app_r.
Qed.

Lemma discount_step_app gamma l1 x y tl :
  discount_step gamma (l1 ++ x :: y :: tl) (S (length tl)) =
  Some (l1 ++ (x + y * gamma) :: y :: tl).
Proof.
  unfold discount_step.
  replace (S (length tl) + 1)%nat with (S (length (y :: tl))) by (simpl; lia).
  rewrite py_back_app. simpl.
  replace (l1 ++ x :: y :: tl) with ((l1 ++ [x]) ++ y :: tl) at 1
    by (by rewrite <- app_assoc).
  rewrite py_back_app. simpl.
  apply (py_set_back_app l1 (y :: tl)).
Qed.

(** The loop converts the entries in front of an already converted, non-empty
    tail, right to left, and leaves everything before them alone. *)
Lemma discount_loop_app gamma front : ∀ pre y tl,
  for_each (discount_step gamma) (seq (S (length tl)) (length front))
    (pre ++ front ++ y :: tl) =
  Some (pre ++ foldr (λ r acc, (r + default 0 (head acc) * gamma) :: acc) (y :: tl) front).
Proof.
  induction front as [|x front IH] using rev_ind; intros pre y tl.
  - done.
  - rewrite length_app. simpl. rewrite Nat.add_1_r. simpl.
    replace (pre ++ (front ++ [x]) ++ y :: tl) with ((pre ++ front) ++ x :: y :: tl)
      by (by rewrite <- !app_assoc).
    rewrite discount_step_app. simpl.
    replace ((pre ++ front) ++ (x + y * gamma) :: y :: tl)
      with (pre ++ front ++ (x + y * gamma) :: y :: tl) by (by rewrite <- !app_assoc).
    pose proof (IH pre (x + y * gamma) (y :: tl)) as Hloop. simpl in Hloop.
    rewrite Hloop. by rewrite foldr_app.
Qed.

Lemma returns_snoc gamma front last :
  returns gamma (front ++ [last]) =
  foldr (λ r acc, (r + default 0 (head acc) * gamma) :: acc) [last] front.
Proof.
  unfold returns. rewrite foldr_app. simpl. do 3 f_equal. ring.
Qed.

(** Run after an episode has been appended to the column, the loop rewrites
    exactly that episode's entries into its returns. *)
Lemma discount_episode_app gamma pre ep :
  discount_episode gamma (length ep) (pre ++ ep) = Some (pre ++ returns gamma ep).
Proof.
  unfold discount_episode.
  destruct ep as [|last front _] using rev_ind; [done|].
  rewrite length_app. simpl. rewrite Nat.add_1_r. simpl. rewrite Nat.sub_0_r.
  rewrite returns_snoc. apply (discount_loop_app gamma front pre last []).
Qed.

Lemma returns_length gamma ep : length (returns gamma ep) = length ep.
Proof. induction ep; simpl; [done|]. by f_equal. Qed.

Lemma returns_lookup gamma ep j r :
  ep !! j = Some r →
  returns gamma ep !! j = Some (r + default 0 (returns gamma ep !! S j) * gamma).
Proof.
  revert j. induction ep as [|x ep IH]; intros j Hj; [done|].
  destruct j as [|j]; simpl in *.
  - injection Hj as ->. by rewrite <- head_lookup.
  - by apply IH.
Qed.

(** C5. After the backward loop over one episode, every stored return is the
    step's reward plus [reward_gamma] times the return stored for the next
    step, taken as 0 past the end of the episode (so the last return is the
    raw reward); rewards [1,1,1] with gamma 0.9 become [2.71, 1.9, 1.0]. *)
Theorem discounted_return_recursion :
  (∀ gamma ep, ∃ ret,
      discount_episode gamma (length ep) ep = Some ret ∧
      length ret = length ep ∧
      (∀ j r, ep !! j = Some r →
         ret !! j = Some (r + default 0 (ret !! S j) * gamma)) ∧
      last ret = last ep) ∧
  discount_episode (qc 9 10) 3 [1; 1; 1] = Some [qc 271 100; qc 19 10; 1].
Proof.
  split; [|qc_decide].
  intros gamma ep. exists (returns gamma ep). split_and!.
  - apply (discount_episode_app gamma [] ep).
  - apply returns_length.
  - apply returns_lookup.
  - destruct ep as [|x ep _] using rev_ind; [done|].
    rewrite returns_snoc, last_snoc.
    induction ep as [|y ep IH]; [done|]. simpl.
    destruct ep; simpl in *; done.
Qed.

Lemma collect_rewards_app gamma episodes : ∀ rs,
  collect_rewards gamma episodes rs = Some (rs ++ concat (returns gamma <$> episodes)).
Proof.
  induction episodes as [|ep rest IH]; intros rs; simpl.
  - by rewrite app_nil_r.
  - rewrite discount_episode_app. simpl. rewrite IH. by rewrite <- app_assoc.
Qed.

(** C9. With several episodes in the one flat reward column, the loop run
    for an episode rewrites that episode's entries only, from that episode's
    rewards only: whatever was collected before stays as it was, the outcome
    is the one the loop gives on the episode alone, and the whole column is
    the concatenation of the per-episode outcomes.  An episode of one step is
    left untouched. *)
Theorem episode_boundary_invariant gamma (episodes : list (list Qc)) (rs : list Qc) :
  (∀ pre ep,
     discount_episode gamma (length ep) (pre ++ ep) =
     (λ ret, pre ++ ret) <$> discount_episode gamma (length ep) ep) ∧
  (∃ rets,
     Forall2 (λ ep ret, discount_episode gamma (length ep) ep = Some ret) episodes rets ∧
     collect_rewards gamma episodes rs = Some (rs ++ concat rets)) ∧
  (∀ pre r, discount_episode gamma (length [r]) (pre ++ [r]) = Some (pre ++ [r])).
Proof.
  split_and!.
  - intros pre ep. rewrite discount_episode_app.
    pose proof (discount_episode_app gamma [] ep) as Halone. simpl in Halone.
    by rewrite Halone.
  - exists (returns gamma <$> episodes). split.
    + apply Forall2_fmap_r, Forall_Forall2_diag, Forall_forall.
      intros ep _. apply (discount_episode_app gamma [] ep).
    + apply collect_rewards_app.
  - done.
Qed.

(** ** The world monad *)

Lemma bind_unfold {A B} (m : M A) (k : A → M B) (w : world) :
  (m ≫= k) w = match m w with (Some x, w') => k x w' | (None, w') => (None, w') end.
Proof. done. Qed.

Lemma bind_ret {A B} (x : A) (k : A → M B) (w : world) : (mret x ≫= k) w = k x w.
Proof. done. Qed.

Lemma bind_lift {A B} (o : option A) (k : A → M B) (w : world) :
  (lift o ≫= k) w = match o with Some x => k x w | None => (None, w) end.
Proof. by destruct o. Qed.

Lemma bind_modify {B} (f : world → world) (k : () → M B) (w : world) :
  (modify f ≫= k) w = k () (f w).
Proof. done. Qed.

Lemma bind_parameters_to_vector {B} (l : nat) (k : vec → M B) (w : world) :
  (parameters_to_vector l ≫= k) w =
  match models w !! l with Some theta => k theta w | None => (None, w) end.
Proof. unfold parameters_to_vector. rewrite bind_unfold. by destruct (models w !! l). Qed.

(** ** Line search *)


Lemma stepfrac_decreasing i :
  stepfrac 0 = 1 ∧ stepfrac (S i) = qc 1 2 * stepfrac i ∧
  0 < stepfrac (S i) < stepfrac i.
Proof.
  assert (∀ j, 0 < stepfrac j) as Hpos.
  { induction j as [|j IH]; [qc_decide|]. unfold stepfrac in *. simpl.
    rewrite <- (Qcmult_0_l (qc 1 2 ^ j)).
    apply Qcmult_lt_compat_r; [done | qc_decide]. }
  split_and!; [done | done | apply Hpos |].
  specialize (Hpos i). unfold stepfrac in *. simpl.
  rewrite <- (Qcmult_1_l (qc 1 2 ^ i)) at 2.
  apply Qcmult_lt_compat_r; [done | qc_decide].
Qed.

Lemma xdiv_Fin (x y : Qc) : y ≠ 0 → xdiv x y = Fin (x / y).
Proof.
  intros Hy. unfold xdiv. destruct (Qceqb y 0) eqn:E; [|done].
  by apply Qceqb_eq in E.
Qed.

Lemma xdiv_zero_pos (x : Qc) : 0 < x → xdiv x 0 = PInf.
Proof.
  intros Hx. unfold xdiv. rewrite (proj2 (Qceqb_eq 0 0)) by done.
  by rewrite (proj2 (Qcltb_lt 0 x)).
Qed.

Section line_search_pure.
Variables (a : agent) (f : vec → Qc) (x fullstep : vec) (eir : Qc).


(** The test as the loop body evaluates it. *)
Definition passes (i : nat) : Prop :=
  0 < f x - f (candidate x fullstep i) ∧
  xgtb (xdiv (f x - f (candidate x fullstep i)) (stepfrac i * eir))
       (accept_ratio a) = true.


Lemma passes_zero (i : nat) :
  eir = 0 → passes i ↔ 0 < f x - f (candidate x fullstep i).
Proof.
  intros Hz. unfold passes. rewrite Hz, Qcmult_0_r. split; [by intros [? _]|].
  intros Hpos. split; [done|]. by rewrite xdiv_zero_pos.
Qed.

Let test (i : nat) : bool :=
  Qcltb 0 (f x - f (candidate x fullstep i)) &&
  xgtb (xdiv (f x - f (candidate x fullstep i)) (stepfrac i * eir)) (accept_ratio a).

Let ls_loop_unfold i n w :
  ls_loop a (λ v, mret (f v)) x fullstep eir (f x) i (S n) w =
  if test i then (Some (true, candidate x fullstep i), w)
  else ls_loop a (λ v, mret (f v)) x fullstep eir (f x) (S i) n w.
Proof.
  simpl. rewrite bind_ret. unfold test.
  destruct (Qcltb 0 _); [|done]. simpl. by destruct (xgtb _ _).
Qed.

Let test_passes i : test i = true ↔ passes i.
Proof. unfold test, passes. by rewrite andb_true_iff, Qcltb_lt. Qed.

(** The loop either stops at the first index that passes or runs out. *)
Lemma ls_loop_pure n : ∀ i w,
  (∃ k, (i ≤ k < i + n)%nat ∧ passes k ∧ (∀ j, (i ≤ j < k)%nat → ¬ passes j) ∧
        ls_loop a (λ v, mret (f v)) x fullstep eir (f x) i n w =
        (Some (true, candidate x fullstep k), w)) ∨
  ((∀ j, (i ≤ j < i + n)%nat → ¬ passes j) ∧
   ls_loop a (λ v, mret (f v)) x fullstep eir (f x) i n w = (Some (false, x), w)).
Proof.
  induction n as [|n IH]; intros i w.
  - right. split; [|done]. intros j. lia.
  - rewrite ls_loop_unfold. destruct (test i) eqn:Ht.
    + apply test_passes in Ht. left. exists i.
      split; [lia|]. split_and!; [done | | done]. intros j. lia.
    + assert (¬ passes i) as Hi.
      { rewrite <- test_passes. congruence. }
      destruct (IH (S i) w) as [(k & Hk & Hacc & Hfirst & ->)|[Hnone ->]].
      * left. exists k. split; [lia|]. split_and!; [done | | done].
        intros j Hj. destruct (decide (j = i)) as [->|]; [done|].
        apply Hfirst. lia.
      * right. split; [|done]. intros j Hj.
        destruct (decide (j = i)) as [->|]; [done|]. apply Hnone. lia.
Qed.

(** What [line_search] returns, in terms of the test of the loop body. *)
Lemma line_search_pure (w : world) (xi : vec) :
  (line_search a (λ v, mret (f v)) x fullstep eir w = (Some (true, xi), w) ↔
   ∃ i, (i < ls_iters a)%nat ∧ xi = candidate x fullstep i ∧ passes i ∧
        ∀ j, (j < i)%nat → ¬ passes j) ∧
  (line_search a (λ v, mret (f v)) x fullstep eir w = (Some (false, x), w) ↔
   ∀ i, (i < ls_iters a)%nat → ¬ passes i).
Proof.
  unfold line_search. rewrite bind_ret.
  destruct (ls_loop_pure (ls_iters a) 0%nat w)
    as [(k & Hk & Hacc & Hfirst & ->)|[Hnone ->]].
  - split; split.
    + intros [= <-]. exists k. split; [lia|]. split_and!; [done..|].
      intros j Hj. apply Hfirst. lia.
    + intros (i & Hi & -> & Hacci & Hfirsti).
      destruct (Nat.lt_trichotomy i k) as [Hlt|[->|Hgt]]; [|done|].
      * destruct (Hfirst i); [lia | done].
      * destruct (Hfirsti k); [lia | done].
    + done.
    + intros Hnone. destruct (Hnone k); [lia | done].
  - split; split.
    + done.
    + intros (i & Hi & _ & Hacci & _). destruct (Hnone i); [lia | done].
    + intros _ i Hi. apply Hnone. lia.
    + done.
Qed.
End line_search_pure.


(** The rate [0.0]: the quotient of a positive improvement is [inf], so the
    search stops at the first candidate that lowers the loss, and fails
    when none of the [ls_iters] candidates does.  (The model has one zero;
    over the float [-0.0] the quotient is [-inf] and nothing is accepted.) *)
Lemma line_search_zero_rate (a : agent) (f : vec → Qc) (x fullstep : vec)
    (w : world) (xi : vec) :
  (line_search a (λ v, mret (f v)) x fullstep 0 w = (Some (true, xi), w) ↔
   ∃ i, (i < ls_iters a)%nat ∧ xi = candidate x fullstep i ∧
        f xi < f x ∧ ∀ j, (j < i)%nat → f x ≤ f (candidate x fullstep j)) ∧
  (line_search a (λ v, mret (f v)) x fullstep 0 w = (Some (false, x), w) ↔
   ∀ i, (i < ls_iters a)%nat → f x ≤ f (candidate x fullstep i)).
Proof.
  destruct (line_search_pure a f x fullstep 0 w xi) as [Hyes Hno].
  assert (∀ i, passes a f x fullstep 0 i ↔ f (candidate x fullstep i) < f x)
    as Hsame.
  { intros i. rewrite passes_zero by done. symmetry. apply Qclt_minus_iff. }
  assert (∀ i, ¬ passes a f x fullstep 0 i ↔ f x ≤ f (candidate x fullstep i))
    as Hnot.
  { intros i. rewrite Hsame. split; [apply Qcnot_lt_le | apply Qcle_not_lt]. }
  split.
  - rewrite Hyes. split; intros (i & Hi & -> & Hacc & Hfirst); exists i;
      (split; [done|]); (split; [done|]); (split; [by apply Hsame|]);
      intros j Hj; apply Hnot; by apply Hfirst.
  - rewrite Hno. split; intros Hnone i Hi; apply Hnot; by apply Hnone.
Qed.

(** ** The live policy and its copies *)

(** [w'] has every model object of [w] with the same parameters (and maybe
    new objects); everything else in the world is as in [w]. *)
Definition extends (w w' : world) : Prop :=
  models w ⊆ models w' ∧ value_theta w' = value_theta w ∧
  log w' = log w ∧ fvp_calls w' = fvp_calls w.

Global Instance extends_preorder : PreOrder extends.
Proof.
  split.
  - intros w. by unfold extends.
  - intros w1 w2 w3 (? & ? & ? & ?) (? & ? & ? & ?). unfold extends.
    split_and!; [by etrans | congruence..].
Qed.

Lemma extends_lookup w w' l theta :
  extends w w' → models w !! l = Some theta → models w' !! l = Some theta.
Proof. intros (Hsub & _) Hl. by eapply lookup_weaken. Qed.

Section frame.
Context {St : Type}.
Variable policy_forward : vec → St → vec.
Variable a : agent.
Variable self_policy : nat.

(** The value [get_loss] returns, as a function of the live parameters. *)
Definition loss_value (live : vec) (b : trajectories St) (advantage theta : vec)
  : option Qc :=
  prob_old ← gather (policy_forward live <$> t_s b) (t_a b);
  if decide (length live ≤ length theta)%nat then
    prob_new ← gather (policy_forward (take (length live) theta) <$> t_s b) (t_a b);
    ratio ← vdiv prob_new prob_old;
    m ← mean (vmul ratio advantage);
    Some (- m)
  else None.

Lemma get_loss_spec b advantage theta w live :
  models w !! self_policy = Some live →
  ∃ w', get_loss policy_forward self_policy b advantage theta w =
          (loss_value live b advantage theta, w') ∧
        extends w w'.
Proof.
  intros Hlive. unfold get_loss, loss_value, forward, parameters_to_vector.
  rewrite !bind_unfold. simpl. rewrite Hlive. simpl.
  rewrite bind_lift.
  destruct (gather (policy_forward live <$> t_s b) (t_a b)) as [prob_old|]; simpl;
    [|by exists w].
  rewrite !bind_unfold. unfold deepcopy at 1. rewrite Hlive.
  set (l' := fresh (dom (models w))).
  assert (models w !! l' = None) as Hfresh.
  { apply not_elem_of_dom, is_fresh. }
  unfold vector_to_parameters. simpl. rewrite bind_unfold. simpl.
  rewrite lookup_insert_eq.
  destruct (decide (length live ≤ length theta)%nat) as [Hlen|Hlen].
  - rewrite !bind_unfold. simpl. rewrite lookup_insert_eq. simpl.
    set (w' := set_models _ (set_models _ w)).
    assert (extends w w') as Hext.
    { unfold extends, w'. simpl. rewrite insert_insert_eq.
      split_and!; [|done..]. by apply insert_subseteq. }
    rewrite bind_lift.
    destruct (gather _ (t_a b)) as [prob_new|]; simpl; [|by exists w'].
    rewrite bind_lift. destruct (vdiv prob_new prob_old) as [ratio|]; simpl;
      [|by exists w'].
    rewrite bind_lift. destruct (mean _) as [m|]; simpl; by exists w'.
  - eexists. split; [done|].
    unfold extends. simpl. split_and!; [|done..]. by apply insert_subseteq.
Qed.

(** One evaluation of the loss, step by step: a new object is allocated,
    the candidate parameters are written to it and to nothing else, and the
    value returned is computed from the forward pass of that object. *)
Lemma get_loss_on_copy b advantage theta w live prob_old :
  models w !! self_policy = Some live →
  gather (policy_forward live <$> t_s b) (t_a b) = Some prob_old →
  length theta = length live →
  let new_model := fresh (dom (models w)) in
  models w !! new_model = None ∧
  get_loss policy_forward self_policy b advantage theta w =
    (prob_new ← gather (policy_forward theta <$> t_s b) (t_a b);
     ratio ← vdiv prob_new prob_old;
     m ← mean (vmul ratio advantage);
     Some (- m),
     set_models <[new_model := theta]> w).
Proof.
  intros Hlive Hold Hlen new_model.
  assert (models w !! new_model = None) as Hfresh.
  { apply not_elem_of_dom, is_fresh. }
  split; [done|].
  unfold get_loss, forward, parameters_to_vector.
  rewrite !bind_unfold. simpl. rewrite Hlive. simpl.
  rewrite bind_lift, Hold. rewrite !bind_unfold.
  unfold deepcopy at 1. rewrite Hlive. fold new_model.
  unfold vector_to_parameters. simpl. rewrite bind_unfold. simpl.
  rewrite lookup_insert_eq.
  rewrite decide_True by lia.
  rewrite !bind_unfold. simpl. rewrite lookup_insert_eq. simpl.
  rewrite <- Hlen, firstn_all.
  assert (set_models <[new_model := theta]> (set_models <[new_model := live]> w) =
          set_models <[new_model := theta]> w) as ->.
  { unfold set_models. simpl. by rewrite insert_insert_eq. }
  rewrite bind_lift.
  destruct (gather (policy_forward theta <$> t_s b) (t_a b)) as [prob_new|];
    simpl; [|done].
  rewrite bind_lift. destruct (vdiv prob_new prob_old) as [ratio|]; simpl; [|done].
  rewrite bind_lift. by destruct (mean _) as [m|].
Qed.

(** A search over a loss that only adds objects to the world and whose value
    is a function [g] of the parameters tried. *)
Lemma ls_loop_frame (f : vec → M Qc) (g : vec → option Qc) (w0 : world)
    (x fullstep : vec) (eir fval : Qc) :
  (∀ theta w, extends w0 w → ∃ w', f theta w = (g theta, w') ∧ extends w w') →
  ∀ n i w, extends w0 w →
  ∃ r w', ls_loop a f x fullstep eir fval i n w = (r, w') ∧ extends w w' ∧
    match r with
    | Some (true, xi) =>
        (∃ k, xi = candidate x fullstep k) ∧ ∃ fxi, g xi = Some fxi ∧ 0 < fval - fxi
    | Some (false, x') => x' = x
    | None => True
    end.
Proof.
  intros Hf. induction n as [|n IH]; intros i w Hw.
  - exists (Some (false, x)), w. by split_and!.
  - simpl. rewrite bind_unfold.
    destruct (Hf (candidate x fullstep i) w Hw) as (w1 & -> & Hw1).
    destruct (g (candidate x fullstep i)) as [fxi|] eqn:Hg;
      [|by exists None, w1].
    assert (extends w0 w1) as Hw01 by (by etrans).
    destruct (IH (S i) w1 Hw01) as (r & w' & Hloop & Hw' & Hr).
    destruct (Qcltb 0 (fval - fxi)) eqn:Hpos.
    + cbv zeta. destruct (xgtb _ (accept_ratio a)).
      * exists (Some (true, candidate x fullstep i)), w1.
        split_and!; [done | done | by exists i |].
        exists fxi. split; [done|]. by apply Qcltb_lt.
      * exists r, w'. split_and!; [done | by etrans | done].
    + exists r, w'. split_and!; [done | by etrans | done].
Qed.

Lemma candidate_length x fullstep i :
  length fullstep = length x → length (candidate x fullstep i) = length x.
Proof.
  intros Hlen. unfold candidate, vadd, vscale.
  rewrite length_zip_with, length_fmap. lia.
Qed.

(** The search of [learn]: the loss is [get_loss], the start is the live
    parameter vector. *)
Lemma line_search_frame (b : trajectories St) (advantage fullstep : vec) (eir : Qc)
    (w : world) (live : vec) :
  models w !! self_policy = Some live →
  ∃ r w1,
    line_search a (get_loss policy_forward self_policy b advantage)
      live fullstep eir w = (r, w1) ∧
    extends w w1 ∧
    match r with
    | Some (true, xi) => xi ≠ live ∧ ∃ k, xi = candidate live fullstep k
    | Some (false, x') => x' = live
    | None => True
    end.
Proof.
  intros Hlive.
  assert (∀ theta w', extends w w' →
            ∃ w'', get_loss policy_forward self_policy b advantage theta w' =
                     (loss_value live b advantage theta, w'') ∧ extends w' w'')
    as Hf.
  { intros theta w' Hw'. apply get_loss_spec. by eapply extends_lookup. }
  unfold line_search. rewrite bind_unfold.
  destruct (Hf live w) as (w0 & -> & Hw0); [done|].
  destruct (loss_value live b advantage live) as [fval|] eqn:Hfval;
    [|by exists None, w0].
  destruct (ls_loop_frame _ _ w live fullstep eir fval Hf (ls_iters a) 0%nat w0 Hw0)
    as (r & w1 & Hloop & Hw1 & Hr).
  exists r, w1. split_and!; [done | by etrans |].
  destruct r as [[[] xi]|]; [|done..].
  destruct Hr as (Hk & fxi & Hfxi & Hpos). split; [|done].
  intros ->. rewrite Hfval in Hfxi. injection Hfxi as <-.
  revert Hpos. unfold Qcminus. rewrite Qcplus_opp_r. apply (irreflexivity Qclt).
Qed.

Lemma search_and_apply_unfold (b : trajectories St) (advantage fullstep : vec)
    (eir : Qc) (w : world) (live : vec) :
  models w !! self_policy = Some live →
  search_and_apply policy_forward a self_policy b advantage fullstep eir w =
  match line_search a (get_loss policy_forward self_policy b advantage)
          live fullstep eir w with
  | (Some (true, new_theta), w1) => vector_to_parameters new_theta self_policy w1
  | (Some (false, _), w1) => (Some (), w1)
  | (None, w1) => (None, w1)
  end.
Proof.
  intros Hlive. unfold search_and_apply, parameters_to_vector.
  rewrite bind_unfold. cbv beta. rewrite Hlive. rewrite bind_unfold.
  destruct (line_search _ _ _ _ _ _) as [[[[] new_theta]|] w1]; done.
Qed.

(** What the search and the write-back do to the world, case by case on the
    outcome of the search. *)
Lemma search_and_apply_spec
    (b : trajectories St) (advantage fullstep : vec) (eir : Qc)
    (w : world) (live : vec) :
  models w !! self_policy = Some live →
  ∃ r w1,
    line_search a (get_loss policy_forward self_policy b advantage)
      live fullstep eir w = (r, w1) ∧
    extends w w1 ∧
    models w1 !! self_policy = Some live ∧
    match r with
    | Some (true, new_theta) =>
        new_theta ≠ live ∧
        search_and_apply policy_forward a self_policy b advantage fullstep eir w =
          vector_to_parameters new_theta self_policy w1 ∧
        (length fullstep = length live →
         search_and_apply policy_forward a self_policy b advantage fullstep eir w =
           (Some (), set_models <[self_policy := new_theta]> w1))
    | Some (false, new_theta) =>
        new_theta = live ∧
        search_and_apply policy_forward a self_policy b advantage fullstep eir w =
          (Some (), w1)
    | None =>
        search_and_apply policy_forward a self_policy b advantage fullstep eir w =
          (None, w1)
    end.
Proof.
  intros Hlive.
  destruct (line_search_frame b advantage fullstep eir w live Hlive)
    as (r & w1 & Hsearch & Hext & Hr).
  pose proof (extends_lookup _ _ _ _ Hext Hlive) as Hlive1.
  exists r, w1. rewrite (search_and_apply_unfold _ _ _ _ _ live Hlive), Hsearch.
  split_and!; [done..|].
  destruct r as [[[] new_theta]|]; [|done..].
  destruct Hr as (Hne & k & ->). split_and!; [done..|].
  intros Hlen. unfold vector_to_parameters. rewrite Hlive1.
  rewrite decide_True by (by rewrite candidate_length).
  by rewrite <- (candidate_length live fullstep k Hlen), firstn_all.
Qed.
End frame.

(** ** The policy-gradient objective *)

Lemma vdiv_self (v : vec) :
  Forall (λ p, p ≠ 0) v → vdiv v v = Some (replicate (length v) 1).
Proof.
  intros Hv. unfold vdiv. apply mapM_Some.
  induction Hv as [|p v Hp Hv IH]; simpl; [constructor|].
  constructor; [|done]. simpl. rewrite qdiv_Some by done.
  f_equal. unfold Qcdiv. by apply Qcmult_inv_r.
Qed.

Lemma vmul_ones (u : vec) (n : nat) : length u = n → vmul u (replicate n 1) = u.
Proof.
  intros <-. unfold vmul. induction u as [|x u IH]; simpl; [done|].
  by rewrite Qcmult_1_r, IH.
Qed.

Lemma mean_is_Some (v : vec) : v ≠ [] → is_Some (mean v).
Proof.
  intros Hv. unfold mean. rewrite qdiv_Some; [done|].
  destruct v as [|x v]; [done|]. rewrite Qc_neq_Q. simpl.
  rewrite Qred_correct. unfold Qeq. simpl. lia.
Qed.

(** C10. In the objective built by [learn] the old probabilities are the
    gathered collection-time probabilities themselves (a detached copy), so
    the importance ratio is 1 on every batch element and the value of the
    objective is the batch mean of the advantage.  The probabilities of the
    actions that were drawn are taken to be non-zero. *)
Theorem surrogate_ratio_is_one {St} (b : trajectories St) (advantage new_probs : vec) :
  gather (t_p b) (t_a b) = Some new_probs →
  Forall (λ p, p ≠ 0) new_probs →
  length advantage = length new_probs →
  advantage ≠ [] →
  ∃ obj,
    surrogate b advantage = Some (new_probs, new_probs, obj) ∧
    vdiv new_probs new_probs = Some (replicate (length new_probs) 1) ∧
    mean advantage = Some obj.
Proof.
  intros Hgather Hnz Hlen Hne.
  destruct (mean_is_Some advantage Hne) as [obj Hobj]. exists obj.
  unfold surrogate. rewrite Hgather. simpl.
  rewrite (vdiv_self new_probs Hnz). simpl.
  rewrite (vmul_ones advantage _ Hlen), Hobj. done.
Qed.

Lemma surrogate_ratio_is_one_witness :
  let batch1 := batch_at toy.collected 0 3 in
  ∃ obj,
    surrogate batch1 [1; - 1; 0] =
      Some ([qc 1 2; qc 1 2; qc 1 2], [qc 1 2; qc 1 2; qc 1 2], obj) ∧
    vdiv [qc 1 2; qc 1 2; qc 1 2] [qc 1 2; qc 1 2; qc 1 2] = Some (replicate 3 1) ∧
    mean [1; - 1; 0] = Some obj.
Proof.
  apply (surrogate_ratio_is_one (batch_at toy.collected 0 3) [1; - 1; 0]
           [qc 1 2; qc 1 2; qc 1 2]).
  - qc_decide.
  - repeat constructor; apply Qc_neq_Q; vm_compute; discriminate.
  - reflexivity.
  - discriminate.
Defined.

(** ** Sampling *)

Section sampling.
Context {St : Type}.
Variable policy_forward : vec → St → vec.
Variable a : agent.
Variable self_policy : nat.

Lemma run_episode_spec theta0 (ep : list (env_step St)) : ∀ tr w,
  models w !! self_policy = Some theta0 →
  run_episode policy_forward self_policy ep tr w =
  (Some {| t_s := t_s tr ++ (obs <$> ep);
           t_a := t_a tr ++ (action <$> ep);
           t_r := t_r tr ++ (reward <$> ep);
           t_p := t_p tr ++ ((λ st, policy_forward theta0 (obs st)) <$> ep) |}, w).
Proof.
  induction ep as [|st ep IH]; intros tr w Hlive.
  - simpl. rewrite !app_nil_r. by destruct tr.
  - cbn [run_episode]. unfold act, parameters_to_vector.
    rewrite !bind_unfold. cbv beta. rewrite Hlive. unfold mret, M_ret.
    rewrite IH by done. cbn [t_s t_a t_r t_p].
    by rewrite !fmap_cons, <- !app_assoc.
Qed.

Lemma sample_spec theta0 (episodes : list (list (env_step St))) : ∀ tr w,
  models w !! self_policy = Some theta0 →
  sample policy_forward a self_policy episodes tr w =
  (Some {| t_s := t_s tr ++ (obs <$> concat episodes);
           t_a := t_a tr ++ (action <$> concat episodes);
           t_r := t_r tr ++
                  concat ((λ ep, returns (reward_gamma a) (reward <$> ep)) <$> episodes);
           t_p := t_p tr ++
                  ((λ st, policy_forward theta0 (obs st)) <$> concat episodes) |}, w).
Proof.
  induction episodes as [|ep rest IH]; intros tr w Hlive.
  - simpl. rewrite !app_nil_r. by destruct tr.
  - cbn [sample]. unfold sample_episode. rewrite !bind_unfold.
    rewrite (run_episode_spec theta0) by done. rewrite bind_lift.
    cbn [t_s t_a t_r t_p].
    rewrite <- (length_fmap reward ep), discount_episode_app.
    unfold mret, M_ret. rewrite IH by done. cbn [t_s t_a t_r t_p].
    by rewrite concat_cons, !fmap_cons, concat_cons, !fmap_app, <- !app_assoc.
Qed.

(** The reward column of the sampler is the one [collect_rewards] builds. *)
Lemma sample_rewards theta0 (episodes : list (list (env_step St))) tr w :
  models w !! self_policy = Some theta0 →
  t_r <$> (sample policy_forward a self_policy episodes tr w).1 =
  collect_rewards (reward_gamma a)
    ((λ ep : list (env_step St), reward <$> ep) <$> episodes) (t_r tr).
Proof.
  intros Hlive. rewrite (sample_spec theta0), collect_rewards_app by done.
  simpl. by rewrite <- list_fmap_compose.
Qed.
End sampling.

Lemma gather_fmap {A} (f : A → vec) (g : A → nat) (l : list A) :
  gather (f <$> l) (g <$> l) = mapM (λ x, f x !! g x) l.
Proof.
  unfold gather. induction l as [|x l IH]; simpl; [done|]. by rewrite <- IH.
Qed.

Lemma slice_fmap {A B} (f : A → B) (l : list A) i j :
  slice (f <$> l) i j = f <$> slice l i j.
Proof. unfold slice. by rewrite fmap_take, fmap_drop. Qed.

(** C4 (as amended). For trajectories sampled while the live parameters were
    [theta0], the objective of every batch takes its new probabilities from
    the stored column: they are the probabilities of the recorded actions
    under [theta0], the parameters at collection time, and the old
    probabilities are the same values.  The live parameters at update time do
    not enter. *)
Theorem new_probs_are_collection_time {St} (policy_forward : vec → St → vec)
    (a : agent) (self_policy : nat) (episodes : list (list (env_step St)))
    (w : world) (theta0 : vec) :
  models w !! self_policy = Some theta0 →
  ∃ tr,
    sample policy_forward a self_policy episodes (Trajectories [] [] [] []) w =
      (Some tr, w) ∧
    ∀ index batch_size advantage new_probs old_probs obj,
      surrogate (batch_at tr index batch_size) advantage =
        Some (new_probs, old_probs, obj) →
      old_probs = new_probs ∧
      mapM (λ st, policy_forward theta0 (obs st) !! action st)
           (slice (concat episodes) index (index + batch_size)) = Some new_probs.
Proof.
  intros Hlive. eexists. split; [by apply (sample_spec _ _ _ theta0)|].
  intros index batch_size advantage new_probs old_probs obj. simpl.
  unfold surrogate. simpl. rewrite !slice_fmap, gather_fmap.
  destruct (mapM _ _) as [probs|]; [|done]. simpl.
  destruct (vdiv probs probs); [|done]. simpl.
  destruct (mean _); [|done]. simpl. by intros [= <- <- _].
Qed.

Lemma new_probs_are_collection_time_witness :
  models toy.w0 !! toy.self_policy = Some toy.theta0 ∧
  ∃ tr,
    sample toy.policy toy.config toy.self_policy toy.episodes
      (Trajectories [] [] [] []) toy.w0 = (Some tr, toy.w0) ∧
    ∀ index batch_size advantage new_probs old_probs obj,
      surrogate (batch_at tr index batch_size) advantage =
        Some (new_probs, old_probs, obj) →
      old_probs = new_probs ∧
      mapM (λ st, toy.policy toy.theta0 (obs st) !! action st)
           (slice (concat toy.episodes) index (index + batch_size)) = Some new_probs.
Proof.
  split; [reflexivity|].
  apply (new_probs_are_collection_time toy.policy toy.config toy.self_policy
           toy.episodes toy.w0 toy.theta0).
  reflexivity.
Defined.

(** The toy run, two batches of three steps.  The first batch is accepted
    and moves the live parameter from 1/2 to 11/20.  The objective of the
    second batch still takes the stored probabilities 1/2 as its new
    probabilities; the probabilities of the recorded actions under the live
    parameters are 11/20, 9/20 and 11/20. *)
Lemma new_probs_stale_after_update :
  let batch1 := batch_at toy.collected 0 3 in
  let batch2 := batch_at toy.collected 3 3 in
  let after1 :=
    (learn_batch toy.policy toy.value toy.value_step toy.grad toy.kl_hessian_vp
       toy.sqrt_exact toy.config toy.self_policy batch1 toy.w0) in
  let stored := [qc 1 2; qc 1 2; qc 1 2] in
  let current := [qc 11 20; qc 9 20; qc 11 20] in
  sample toy.policy toy.config toy.self_policy toy.episodes
    (Trajectories [] [] [] []) toy.w0 = (Some toy.collected, toy.w0) ∧
  xrange_step (length (t_s toy.collected)) 3 = Some [0; 3]%nat ∧
  after1.1 = Some () ∧
  models after1.2 !! toy.self_policy = Some [qc 11 20] ∧
  standardize toy.sqrt_exact (vsub (t_r batch2) (toy.value [] <$> t_s batch2)) =
    Some [1; - 1; 0] ∧
  (fst <$> surrogate batch2 [1; - 1; 0]) = Some (stored, stored) ∧
  gather (toy.policy [qc 11 20] <$> t_s batch2) (t_a batch2) = Some current ∧
  stored ≠ current.
Proof. split_and!; qc_decide. Qed.

(** ** The batch body *)

Lemma allclose0_Forall (pg : vec) :
  allclose0 pg = true ↔ Forall (λ g, Qcabs g ≤ qc 1 100000000) pg.
Proof.
  unfold allclose0. rewrite forallb_forall, Forall_forall.
  split; intros H g Hg.
  - apply list_elem_of_In, H in Hg. unfold Qcleb in Hg.
    apply negb_true_iff in Hg. by apply Qcltb_ge.
  - apply list_elem_of_In, H in Hg. unfold Qcleb.
    apply negb_true_iff. by apply Qcltb_ge.
Qed.

Section batch.
Context {St : Type}.
Variable policy_forward : vec → St → vec.
Variable value_forward : vec → St → Qc.
Variable value_step : vec → list St → vec → vec.
Variable grad_neg_obj : vec → trajectories St → vec → vec.
Variable kl_hessian_vp : vec → list St → vec → vec.
Variable sqrt_ : Qc → option Qc.
Variable a : agent.
Variable self_policy : nat.

Local Abbreviation learn_batch' :=
  (learn_batch policy_forward value_forward value_step grad_neg_obj
     kl_hessian_vp sqrt_ a self_policy).
Local Abbreviation policy_update' :=
  (policy_update policy_forward kl_hessian_vp sqrt_ a self_policy).
Local Abbreviation search_and_apply' :=
  (search_and_apply policy_forward a self_policy).

(** The batch body, once the advantage has a value and the objective can be
    formed: the value network is updated, then the gradient decides. *)
Lemma learn_batch_unfold (b : trajectories St) (w : world) (theta advantage : vec) :
  models w !! self_policy = Some theta →
  standardize sqrt_ (vsub (t_r b) (value_forward (value_theta w) <$> t_s b)) =
    Some advantage →
  is_Some (surrogate b advantage) →
  learn_batch' b w =
  let w' := set_value_theta (value_step (value_theta w) (t_s b) (t_r b)) w in
  let pg := grad_neg_obj theta b advantage in
  if allclose0 pg then (Some (), add_log zero_gradient_warning w')
  else policy_update' b advantage pg w'.
Proof.
  intros Hlive Hadv [o Ho]. unfold learn_batch, value_parameters.
  rewrite bind_unfold. cbv beta zeta. rewrite bind_modify, bind_lift, Hadv.
  rewrite bind_lift, Ho.
  rewrite bind_parameters_to_vector. cbn [models set_value_theta].
  rewrite Hlive. by destruct (allclose0 _).
Qed.

(** C7. When every entry of the batch's policy gradient is within the
    tolerance of [numpy.allclose] of zero, the batch body ends normally with
    the warning appended to the log and nothing else done after the value
    update: the model heap (live parameters, no copies made by a search) and
    the count of Fisher-vector products are as before, and the batch loop goes
    on with the remaining batches from that world. *)
Theorem zero_gradient_skips_update (b : trajectories St) (w : world)
    (theta advantage : vec) :
  models w !! self_policy = Some theta →
  standardize sqrt_ (vsub (t_r b) (value_forward (value_theta w) <$> t_s b)) =
    Some advantage →
  is_Some (surrogate b advantage) →
  Forall (λ g, Qcabs g ≤ qc 1 100000000) (grad_neg_obj theta b advantage) →
  ∃ w',
    learn_batch' b w = (Some (), w') ∧
    models w' = models w ∧
    models w' !! self_policy = Some theta ∧
    fvp_calls w' = fvp_calls w ∧
    log w' = log w ++ [zero_gradient_warning] ∧
    ∀ (tr : trajectories St) batch_size index rest,
      b = batch_at tr index batch_size →
      for_M (λ i, learn_batch' (batch_at tr i batch_size)) (index :: rest) w =
      for_M (λ i, learn_batch' (batch_at tr i batch_size)) rest w'.
Proof.
  intros Hlive Hadv Hobj Hzero%allclose0_Forall.
  eexists. rewrite (learn_batch_unfold b w theta advantage) by done.
  cbv zeta. rewrite Hzero. split_and!; [done..|].
  intros tr batch_size index rest ->. cbn [for_M]. rewrite bind_unfold.
  rewrite (learn_batch_unfold _ w theta advantage) by done.
  cbv zeta. by rewrite Hzero.
Qed.

(** Everything in the update before the search leaves the model heap alone. *)
Lemma policy_update_reaches_search (b : trajectories St) (advantage pg : vec)
    (w : world) (live : vec) :
  models w !! self_policy = Some live →
  (∃ w', policy_update' b advantage pg w = (None, w') ∧ models w' = models w) ∨
  (∃ fullstep eir w0,
     models w0 = models w ∧
     policy_update' b advantage pg w = search_and_apply' b advantage fullstep eir w0).
Proof.
  intros Hlive. unfold policy_update.
  rewrite bind_parameters_to_vector, Hlive.
  rewrite bind_modify, bind_lift.
  destruct (cg_x <$> _) as [stepdir|]; [|left; by eexists].
  rewrite bind_modify, bind_lift.
  destruct (qdiv _ (max_kl a)) as [q|]; [|left; by eexists].
  rewrite bind_lift. destruct (sqrt_ q) as [lm|]; [|left; by eexists].
  rewrite bind_lift. destruct (vdiv_scalar stepdir lm) as [fullstep|];
    [|left; by eexists].
  rewrite bind_lift. destruct (qdiv _ lm) as [eir|]; [|left; by eexists].
  right. eexists fullstep, eir, _. split; [|reflexivity]. done.
Qed.

(** C3. From a world whose live policy has the parameters [live]:
    every evaluation of the loss during the search allocates a new model
    object, writes the candidate parameters to that object and to no other,
    and computes its value from that object's forward pass; the search
    therefore leaves every existing object as it was, and the live model
    still has the parameters [live] when the search returns, whatever it
    returns.  A search that reports failure returns [live] itself and
    nothing is written; a search that reports success returns a candidate
    different from [live], and the write-back makes it the parameter vector
    of the live model.  Over the whole batch body the live parameters are
    [live] at the end unless that search was reached and reported success,
    in which case they are the parameters it returned. *)
Theorem live_policy_written_on_acceptance_only (b : trajectories St)
    (advantage fullstep : vec) (eir : Qc) (w w1 : world) (live prob_old : vec)
    (success : bool) (new_theta : vec) :
  models w !! self_policy = Some live →
  gather (policy_forward live <$> t_s b) (t_a b) = Some prob_old →
  length fullstep = length live →
  line_search a (get_loss policy_forward self_policy b advantage)
    live fullstep eir w = (Some (success, new_theta), w1) →
  (∀ theta w',
     extends w w' → length theta = length live →
     models w' !! fresh (dom (models w')) = None ∧
     get_loss policy_forward self_policy b advantage theta w' =
       (prob_new ← gather (policy_forward theta <$> t_s b) (t_a b);
        ratio ← vdiv prob_new prob_old;
        m ← mean (vmul ratio advantage);
        Some (- m),
        set_models <[fresh (dom (models w')) := theta]> w')) ∧
  extends w w1 ∧
  models w1 !! self_policy = Some live ∧
  (if success then
     new_theta ≠ live ∧
     (∃ k, new_theta = candidate live fullstep k) ∧
     search_and_apply' b advantage fullstep eir w =
       (Some (), set_models <[self_policy := new_theta]> w1)
   else
     new_theta = live ∧
     search_and_apply' b advantage fullstep eir w = (Some (), w1)) ∧
  (models (learn_batch' b w).2 !! self_policy = Some live ∨
   ∃ advantage' fullstep' eir' w0 w1' theta',
     models w0 = models w ∧
     line_search a (get_loss policy_forward self_policy b advantage')
       live fullstep' eir' w0 = (Some (true, theta'), w1') ∧
     theta' ≠ live ∧
     models (learn_batch' b w).2 !! self_policy = Some theta').
Proof.
  intros Hlive Hold Hlen Hsearch. split_and!.
  - intros theta w' Hext Hth.
    apply (get_loss_on_copy policy_forward self_policy b advantage theta w' live);
      [by eapply extends_lookup | done | done].
  - destruct (line_search_frame policy_forward a self_policy b advantage fullstep
                eir w live Hlive) as (r' & w1' & Hs & Hext & _).
    rewrite Hsearch in Hs. by injection Hs as <- <-.
  - destruct (search_and_apply_spec policy_forward a self_policy b advantage
                fullstep eir w live Hlive) as (r' & w1' & Hs & _ & Hlive1 & _).
    rewrite Hsearch in Hs. by injection Hs as <- <-.
  - destruct (line_search_frame policy_forward a self_policy b advantage fullstep
                eir w live Hlive) as (r0 & w0 & Hs0 & _ & Hr0).
    destruct (search_and_apply_spec policy_forward a self_policy b advantage
                fullstep eir w live Hlive) as (r' & w1' & Hs & _ & _ & Hr).
    rewrite Hsearch in Hs0, Hs. injection Hs0 as <- <-. injection Hs as <- <-.
    destruct success; [|done].
    destruct Hr as (Hne & _ & Hwrite). destruct Hr0 as (_ & Hk).
    split_and!; [done | done | by apply Hwrite].
  - clear dependent advantage fullstep success. clear eir w1 new_theta.
    unfold learn_batch, value_parameters.
    rewrite bind_unfold. cbv beta zeta. rewrite bind_modify, bind_lift.
    destruct (standardize _ _) as [advantage|]; [|by left].
    rewrite bind_lift.
    destruct (surrogate b advantage) as [o|]; [|by left].
    rewrite bind_parameters_to_vector. cbn [models set_value_theta].
    rewrite Hlive.
    destruct (allclose0 _); [by left|].
    set (wv := set_value_theta _ w).
    assert (models wv !! self_policy = Some live) as Hlivev by done.
    destruct (policy_update_reaches_search b advantage
                (grad_neg_obj live b advantage) wv live Hlivev)
      as [(w' & -> & Hw')|(fullstep & eir & w0 & Hw0 & ->)].
    { left. cbn [snd]. by rewrite Hw'. }
    assert (models w0 !! self_policy = Some live) as Hlive0 by (by rewrite Hw0).
    destruct (line_search_frame policy_forward a self_policy b advantage fullstep
                eir w0 live Hlive0) as (r0 & w0' & Hs0 & _ & Hr0).
    destruct (search_and_apply_spec policy_forward a self_policy b advantage
                fullstep eir w0 live Hlive0) as (r & w1 & Hs & _ & Hlive1 & Hr).
    rewrite Hs in Hs0. injection Hs0 as <- <-.
    destruct r as [[[] new_theta]|].
    + destruct Hr as (Hne & -> & _). destruct Hr0 as (_ & k & Hk).
      unfold vector_to_parameters. rewrite Hlive1.
      destruct (decide (length live ≤ length new_theta)%nat) as [Hle|Hgt].
      * right. exists advantage, fullstep, eir, w0, w1, new_theta.
        split_and!; [done..|]. cbn [snd models set_models].
        rewrite lookup_insert_eq. f_equal. apply firstn_all2.
        rewrite Hk. unfold candidate, vadd. rewrite length_zip_with. lia.
      * by left.
    + left. destruct Hr as (_ & ->). done.
    + left. by rewrite Hr.
Qed.
End batch.

Lemma zero_gradient_skips_update_witness :
  let body :=
    learn_batch toy.policy toy.value toy.value_step toy.grad toy.kl_hessian_vp
      toy.sqrt_exact toy.config toy.self_policy in
  ∃ w',
    body toy.flat_batch toy.w0 = (Some (), w') ∧
    models w' = models toy.w0 ∧
    models w' !! toy.self_policy = Some toy.theta0 ∧
    fvp_calls w' = fvp_calls toy.w0 ∧
    log w' = log toy.w0 ++ [zero_gradient_warning] ∧
    ∀ (tr : trajectories unit) batch_size index rest,
      toy.flat_batch = batch_at tr index batch_size →
      for_M (λ i, body (batch_at tr i batch_size)) (index :: rest) toy.w0 =
      for_M (λ i, body (batch_at tr i batch_size)) rest w'.
Proof.
  apply (zero_gradient_skips_update toy.policy toy.value toy.value_step toy.grad
           toy.kl_hessian_vp toy.sqrt_exact toy.config toy.self_policy
           toy.flat_batch toy.w0 toy.theta0 [1; - 1; 0]).
  - reflexivity.
  - qc_decide.
  - qc_decide.
  - apply allclose0_Forall. vm_compute. reflexivity.
Defined.

(** The first batch of the toy run: the search accepts the full step and
    the live parameter moves from 1/2 to 11/20; the two evaluations of the
    loss have left two copies on the heap, the second holding 11/20. *)
Lemma live_policy_written_on_acceptance_only_witness :
  let b := batch_at toy.collected 0 3 in
  let advantage := [1; - 1; 0] in
  let prob_old := [qc 1 2; qc 1 2; qc 1 2] in
  let w1 :=
    (line_search toy.config (get_loss toy.policy toy.self_policy b advantage)
       toy.theta0 [qc 1 20] (qc 1 15) toy.w0).2 in
  (∀ theta w',
     extends toy.w0 w' → length theta = length toy.theta0 →
     models w' !! fresh (dom (models w')) = None ∧
     get_loss toy.policy toy.self_policy b advantage theta w' =
       (prob_new ← gather (toy.policy theta <$> t_s b) (t_a b);
        ratio ← vdiv prob_new prob_old;
        m ← mean (vmul ratio advantage);
        Some (- m),
        set_models <[fresh (dom (models w')) := theta]> w')) ∧
  extends toy.w0 w1 ∧
  models w1 !! toy.self_policy = Some toy.theta0 ∧
  ([qc 11 20] ≠ toy.theta0 ∧
   (∃ k, [qc 11 20] = candidate toy.theta0 [qc 1 20] k) ∧
   search_and_apply toy.policy toy.config toy.self_policy b advantage
     [qc 1 20] (qc 1 15) toy.w0 =
     (Some (), set_models <[toy.self_policy := [qc 11 20]]> w1)) ∧
  (models (learn_batch toy.policy toy.value toy.value_step toy.grad
             toy.kl_hessian_vp toy.sqrt_exact toy.config toy.self_policy
             b toy.w0).2 !! toy.self_policy = Some toy.theta0 ∨
   ∃ advantage' fullstep' eir' w0 w1' new_theta,
     models w0 = models toy.w0 ∧
     line_search toy.config (get_loss toy.policy toy.self_policy b advantage')
       toy.theta0 fullstep' eir' w0 = (Some (true, new_theta), w1') ∧
     new_theta ≠ toy.theta0 ∧
     models (learn_batch toy.policy toy.value toy.value_step toy.grad
               toy.kl_hessian_vp toy.sqrt_exact toy.config toy.self_policy
               b toy.w0).2 !! toy.self_policy = Some new_theta).
Proof.
  apply (live_policy_written_on_acceptance_only toy.policy toy.value toy.value_step
           toy.grad toy.kl_hessian_vp toy.sqrt_exact toy.config toy.self_policy
           (batch_at toy.collected 0 3) [1; - 1; 0] [qc 1 20] (qc 1 15) toy.w0
           (line_search toy.config
              (get_loss toy.policy toy.self_policy (batch_at toy.collected 0 3)
                 [1; - 1; 0]) toy.theta0 [qc 1 20] (qc 1 15) toy.w0).2
           toy.theta0 [qc 1 2; qc 1 2; qc 1 2] true [qc 11 20]).
  - reflexivity.
  - qc_decide.
  - reflexivity.
  - qc_decide.
Defined.

(** The heap after that search and write-back, and a search that fails: with
    the step reversed no candidate lowers the loss, the start is returned
    and the live parameter stays 1/2. *)
Lemma toy_search_outcomes :
  let b := batch_at toy.collected 0 3 in
  let advantage := [1; - 1; 0] in
  let accepted_run :=
    search_and_apply toy.policy toy.config toy.self_policy b advantage
      [qc 1 20] (qc 1 15) toy.w0 in
  let rejected_search :=
    line_search toy.config (get_loss toy.policy toy.self_policy b advantage)
      toy.theta0 [qc (-1) 20] (qc 1 15) toy.w0 in
  accepted_run.1 = Some () ∧
  models accepted_run.2 !! toy.self_policy = Some [qc 11 20] ∧
  map_to_list (delete toy.self_policy (models accepted_run.2)) ≡ₚ
    [(1%nat, [qc 1 2]); (2%nat, [qc 11 20])] ∧
  rejected_search.1 = Some (false, toy.theta0) ∧
  models rejected_search.2 !! toy.self_policy = Some toy.theta0 ∧
  (search_and_apply toy.policy toy.config toy.self_policy b advantage
     [qc (-1) 20] (qc 1 15) toy.w0).1 = Some () ∧
  models (search_and_apply toy.policy toy.config toy.self_policy b advantage
            [qc (-1) 20] (qc 1 15) toy.w0).2 !! toy.self_policy = Some toy.theta0.
Proof. split_and!; qc_decide. Qed.

(** ** Standardised advantage *)

Section real_standardize.
Local Open Scope R_scope.

Lemma rdiv_Some (x y : R) : y ≠ 0 → real.rdiv x y = Some (x / y).
Proof. intros Hy. unfold real.rdiv. by destruct (Req_dec_T y 0). Qed.

Lemma rdiv_zero (x : R) : real.rdiv x 0 = None.
Proof. unfold real.rdiv. by destruct (Req_dec_T 0 0). Qed.

Lemma rdiv_inv (x y q : R) : real.rdiv x y = Some q → y ≠ 0 ∧ q = x / y.
Proof. unfold real.rdiv. destruct (Req_dec_T y 0); [done|]. by intros [= <-]. Qed.

Lemma rsum_shift_scale (m s : R) (l : list R) :
  s ≠ 0 →
  real.rsum ((λ x, x / s) <$> ((λ x, x - m) <$> l)) =
  (real.rsum l - INR (length l) * m) / s.
Proof.
  intros Hs. unfold real.rsum. induction l as [|x l IH].
  - simpl. field. done.
  - rewrite !fmap_cons. cbn [foldr length]. rewrite IH, S_INR. field. done.
Qed.

Lemma rsum_standardized_squares (m s : R) (l : list R) :
  s ≠ 0 →
  real.rsum ((λ y, (y - 0) * (y - 0)) <$> ((λ x, x / s) <$> ((λ x, x - m) <$> l))) =
  real.rsum ((λ x, (x - m) * (x - m)) <$> l) / (s * s).
Proof.
  intros Hs. unfold real.rsum. induction l as [|x l IH].
  - simpl. field. done.
  - rewrite !fmap_cons. cbn [foldr]. rewrite IH. field. done.
Qed.

Lemma rsum_squares_nonneg (m : R) (l : list R) :
  0 <= real.rsum ((λ x, (x - m) * (x - m)) <$> l).
Proof.
  unfold real.rsum. induction l as [|x l IH]; [simpl; lra|].
  rewrite fmap_cons. cbn [foldr].
  pose proof (Rle_0_sqr (x - m)) as Hsq. unfold Rsqr in Hsq. lra.
Qed.

Lemma mapM_rdiv (s : R) (l : list R) :
  s ≠ 0 → mapM (λ x, real.rdiv x s) l = Some ((λ x, x / s) <$> l).
Proof.
  intros Hs. apply mapM_Some. apply Forall2_fmap_r, Forall_Forall2_diag, Forall_forall.
  intros x _. by apply rdiv_Some.
Qed.

(** What a defined variance says about the batch. *)
Lemma variance_inv (adv : list R) (var : R) :
  real.variance adv = Some var →
  let n := INR (length adv) in
  let m := real.rsum adv / n in
  let ss := real.rsum ((λ x, (x - m) * (x - m)) <$> adv) in
  real.mean adv = Some m ∧ 1 < n ∧ 0 <= ss ∧ var = ss / (n - 1) ∧ adv ≠ [].
Proof.
  unfold real.variance. intros Hvar. cbv zeta.
  destruct (real.mean adv) as [m|] eqn:Hmean; [|done]. simpl in Hvar.
  apply rdiv_inv in Hmean as (Hn & ->). apply rdiv_inv in Hvar as (Hn1 & ->).
  assert (2 ≤ length adv)%nat as Hlen.
  { destruct adv as [|x [|y adv]]; simpl in *; [lra | lra | lia]. }
  apply le_INR in Hlen. simpl in Hlen.
  split_and!; [done | lra | apply rsum_squares_nonneg | done |].
  intros ->. simpl in Hn. lra.
Qed.

(** With a zero variance the divisor of the standardisation is zero. *)
Lemma zero_variance_divides (adv : list R) :
  real.variance adv = Some 0 →
  real.std adv = Some 0 ∧ real.standardize adv = None.
Proof.
  intros Hvar.
  destruct (variance_inv adv 0 Hvar) as (Hmean & _ & _ & _ & Hne).
  split.
  - unfold real.std. rewrite Hvar. simpl. by rewrite sqrt_0.
  - unfold real.standardize, real.std. rewrite Hmean, Hvar. simpl.
    rewrite sqrt_0. destruct adv as [|x adv]; [done|].
    simpl. by rewrite rdiv_zero.
Qed.

(** C6 (as amended). In exact arithmetic, for a batch whose advantage
    (return minus baseline) has a variance (two entries or more): if the
    variance is not zero, the standardised advantage has sample mean 0 and
    sample standard deviation 1 exactly, hence within 1e-6; if the variance
    is zero, the standard deviation is 0 and the standardisation divides by
    it all the same: it is neither skipped nor guarded, and the advantage
    has no value.  (In the float32 arithmetic of the program neither half of
    the original claim holds: see [standardize_unguarded_and_rounded].) *)
Theorem standardized_advantage (b_r baseline : list R) (var : R) :
  let adv := real.advantage b_r baseline in
  real.variance adv = Some var →
  (var ≠ 0 →
   ∃ out mu sigma,
     real.standardize adv = Some out ∧
     real.mean out = Some mu ∧ real.std out = Some sigma ∧
     mu = 0 ∧ sigma = 1 ∧
     Rabs mu <= 1 / 1000000 ∧ Rabs (sigma - 1) <= 1 / 1000000) ∧
  (var = 0 → real.std adv = Some 0 ∧ real.standardize adv = None).
Proof.
  intros adv. clearbody adv. intros Hvar.
  destruct (variance_inv adv var Hvar) as (Hmean & Hn & Hss & Hvar' & Hne).
  set (n := INR (length adv)) in *. set (m := real.rsum adv / n) in *.
  set (ss := real.rsum ((λ x, (x - m) * (x - m)) <$> adv)) in *.
  split.
  - intros Hnz.
    assert (0 < var) as Hpos.
    { assert (0 <= var); [|lra]. rewrite Hvar'.
      apply Rmult_le_pos; [done|]. left. apply Rinv_0_lt_compat. lra. }
    set (s := sqrt var).
    assert (0 < s) as Hs by (by apply sqrt_lt_R0).
    assert (s * s = var) as Hss' by (apply sqrt_sqrt; lra).
    set (out := (λ x, x / s) <$> ((λ x, x - m) <$> adv)).
    assert (length out = length adv) as Hlen.
    { unfold out. by rewrite !length_fmap. }
    assert (real.standardize adv = Some out) as Hout.
    { unfold real.standardize, real.std. rewrite Hmean, Hvar. simpl.
      apply mapM_rdiv. fold s. lra. }
    assert (real.mean out = Some 0) as Hmean'.
    { unfold real.mean. rewrite Hlen. fold n. rewrite rdiv_Some by lra.
      f_equal. unfold out. rewrite rsum_shift_scale by lra. fold n.
      unfold m. clearbody s n. field. lra. }
    assert (real.std out = Some 1) as Hstd'.
    { unfold real.std, real.variance. rewrite Hmean'. simpl.
      rewrite Hlen. fold n. rewrite rdiv_Some by lra. simpl. f_equal.
      unfold out. rewrite rsum_standardized_squares by lra.
      fold ss. rewrite Hss', Hvar'.
      replace (ss / (ss / (n - 1)) / (n - 1)) with 1; [apply sqrt_1|].
      assert (ss ≠ 0).
      { intros Hz. apply Hnz. rewrite Hvar', Hz. unfold Rdiv. ring. }
      clearbody ss n. field. split; [lra | done]. }
    exists out, 0, 1. split_and!; [done..| |].
    + rewrite Rabs_R0. lra.
    + replace (1 - 1) with 0 by ring. rewrite Rabs_R0. lra.
  - intros ->. by apply zero_variance_divides.
Qed.

(** A batch with returns [3, 3] and baseline predictions [2, 2]: the
    advantages are [1, 1], their variance is 0, the standard deviation is 0,
    and the standardisation, which divides by it, has no value. *)
Lemma zero_variance_example :
  real.advantage [3; 3] [2; 2] = [3 - 2; 3 - 2] ∧
  real.variance (real.advantage [3; 3] [2; 2]) = Some 0 ∧
  real.std (real.advantage [3; 3] [2; 2]) = Some 0 ∧
  real.standardize (real.advantage [3; 3] [2; 2]) = None ∧
  (∀ x, real.rdiv x 0 = None).
Proof.
  assert (real.variance (real.advantage [3; 3] [2; 2]) = Some 0) as Hvar.
  { unfold real.variance, real.mean. simpl.
    rewrite rdiv_Some by lra. simpl. rewrite rdiv_Some by lra.
    f_equal. field. }
  destruct (zero_variance_divides _ Hvar) as [Hstd Hnone].
  split_and!; [done..|]. apply rdiv_zero.
Qed.

(** Returns 1e8 and 1e8 + 8 with baseline predictions 0: the variance is 32. *)
Lemma large_returns_variance :
  real.variance (real.advantage [100000000; 100000008] [0; 0]) = Some 32.
Proof.
  unfold real.variance, real.mean. simpl.
  rewrite rdiv_Some by lra. simpl. rewrite rdiv_Some by lra.
  f_equal. field.
Qed.
End real_standardize.

(** The two ways in which the program departs from the original claim.

    No guard: with returns [3, 3] and baseline predictions [2, 2] the
    advantages are [1, 1], the variance and the standard deviation are 0, and
    the standardisation divides by it; in float32 the result is
    [nan, nan].

    Rounding: the returns 1e8 and 1e8 + 8 are float32 numbers, their
    advantages over the baseline 0 have variance 32, but their mean
    100000004 is not a float32 number: it is rounded to 1e8, the centred
    values are 0 and 8, and the standardised advantage is
    [0, 1.4142135], whose mean is above 0.7, not within 1e-6 of 0. *)
Lemma standardize_unguarded_and_rounded :
  let flat := f32.advantage [f32.of_Z 3; f32.of_Z 3] [f32.of_Z 2; f32.of_Z 2] in
  let large :=
    f32.advantage [f32.of_Z 100000000; f32.of_Z 100000008]
                  [f32.of_Z 0; f32.of_Z 0] in
  (real.variance (real.advantage [3; 3] [2; 2]) = Some 0 ∧
   real.std (real.advantage [3; 3] [2; 2]) = Some 0 ∧
   real.standardize (real.advantage [3; 3] [2; 2]) = None)%R ∧
  f32.std flat = S754_zero false ∧
  f32.standardize flat = [S754_nan; S754_nan] ∧
  (real.variance (real.advantage [100000000; 100000008] [0; 0]) = Some 32)%R ∧
  f32.single (f32.mean large) = f32.of_Z 100000000 ∧
  f32.standardize large = [S754_zero false; S754_finite false 11863283 (-23)] ∧
  (7 # 10 < foldr Qplus 0 (f32.value <$> f32.standardize large) / inject_Z 2)%Q.
Proof.
  cbv zeta.
  destruct zero_variance_example as (_ & Hvar & Hstd & Hnone & _).
  split; [done|].
  split; [by vm_compute|]. split; [by vm_compute|].
  split; [apply large_returns_variance|].
  split; [by vm_compute|]. split; [by vm_compute|].
  vm_compute. reflexivity.
Qed.

Lemma standardized_advantage_witness :
  (real.variance (real.advantage [1; 3] [1; 1]) = Some 2 ∧ 2 ≠ 0)%R ∧
  ∃ out mu sigma,
    real.standardize (real.advantage [1; 3] [1; 1])%R = Some out ∧
    real.mean out = Some mu ∧ real.std out = Some sigma ∧
    (mu = 0 ∧ sigma = 1 ∧
     Rabs mu <= 1 / 1000000 ∧ Rabs (sigma - 1) <= 1 / 1000000)%R.
Proof.
  assert (real.variance (real.advantage [1; 3] [1; 1]) = Some 2)%R as Hvar.
  { unfold real.variance, real.mean. simpl.
    rewrite rdiv_Some by lra. simpl. rewrite rdiv_Some by lra.
    f_equal. field. }
  split; [split; [exact Hvar | lra]|].
  apply (standardized_advantage [1; 3]%R [1; 1]%R 2%R Hvar). lra.
Defined.

(** * Further properties of the agent *)

(** ** More on vectors *)

Lemma dot_vadd_r (u v w : vec) :
  length v = length w → dot u (vadd v w) = dot u v + dot u w.
Proof.
  intros H. rewrite dot_comm, dot_vadd_l by done.
  by rewrite (dot_comm v u), (dot_comm w u).
Qed.

Lemma dot_vscale_r (c : Qc) (u w : vec) : dot u (vscale c w) = c * dot u w.
Proof. by rewrite dot_comm, dot_vscale_l, (dot_comm w u). Qed.

Lemma vadd_swap (u1 u2 v1 v2 : vec) :
  vadd (vadd u1 v1) (vadd u2 v2) = vadd (vadd u1 u2) (vadd v1 v2).
Proof.
  unfold vadd. revert u2 v1 v2.
  induction u1 as [|x u1 IH]; intros [|y u2] [|z v1] [|t v2]; simpl; [done..|].
  rewrite IH. f_equal. ring.
Qed.

Lemma vscale_vadd (c : Qc) (u v : vec) :
  vscale c (vadd u v) = vadd (vscale c u) (vscale c v).
Proof.
  unfold vscale, vadd. revert v.
  induction u as [|x u IH]; intros [|y v]; simpl; [done..|].
  rewrite IH. f_equal. ring.
Qed.

Lemma vscale_vscale (c d : Qc) (v : vec) :
  vscale c (vscale d v) = vscale d (vscale c v).
Proof.
  unfold vscale. induction v as [|x v IH]; [done|].
  rewrite !fmap_cons, IH. f_equal. ring.
Qed.

Lemma Qcsquare_nonneg (x : Qc) : 0 ≤ x * x.
Proof. qc2q. generalize (this x). intros q. nra. Qed.

Lemma Qcsquare_pos (x : Qc) : x ≠ 0 → 0 < x * x.
Proof. intros H. qc2q. generalize dependent (this x). intros q H. nra. Qed.

Lemma Qcplus_nonneg_pos (x y : Qc) : 0 ≤ x → 0 < y → 0 < x + y.
Proof.
  intros Hx Hy. qc2q. generalize dependent (this x). generalize dependent (this y).
  intros q Hq p Hp. lra.
Qed.

Lemma Qcplus_pos_nonneg (x y : Qc) : 0 < x → 0 ≤ y → 0 < x + y.
Proof. intros Hx Hy. rewrite Qcplus_comm. by apply Qcplus_nonneg_pos. Qed.

Lemma Qcplus_nonneg_nonneg (x y : Qc) : 0 ≤ x → 0 ≤ y → 0 ≤ x + y.
Proof.
  intros Hx Hy. qc2q. generalize dependent (this x). generalize dependent (this y).
  intros q Hq p Hp. lra.
Qed.

Lemma Qcmult_pos_nonneg (x y : Qc) : 0 < x → 0 ≤ y → 0 ≤ x * y.
Proof.
  intros Hx Hy. qc2q. generalize dependent (this x). generalize dependent (this y).
  intros q Hq p Hp. nra.
Qed.

Lemma Qcmult_pos_pos (x y : Qc) : 0 < x → 0 < y → 0 < x * y.
Proof.
  intros Hx Hy. qc2q. generalize dependent (this x). generalize dependent (this y).
  intros q Hq p Hp. nra.
Qed.

Lemma dot_self_nonneg (v : vec) : 0 ≤ dot v v.
Proof.
  unfold dot. induction v as [|x v IH]; simpl; [done|].
  apply Qcplus_nonneg_nonneg; [apply Qcsquare_nonneg | done].
Qed.

Lemma dot_self_pos (v : vec) : v ≠ replicate (length v) 0 → 0 < dot v v.
Proof.
  unfold dot. induction v as [|x v IH]; simpl; [done|]. intros Hv.
  destruct (decide (x = 0)) as [->|Hx].
  - apply Qcplus_nonneg_pos; [apply Qcsquare_nonneg|].
    apply IH. intros Hz. apply Hv. by rewrite <- Hz.
  - apply Qcplus_pos_nonneg; [by apply Qcsquare_pos | apply dot_self_nonneg].
Qed.

(** ** The damped Fisher-vector product *)

(** A Hessian on vectors of length [n]: linear, symmetric, and positive
    semi-definite (as the Hessian of a KL divergence at its minimum is). *)
Definition psd_hessian (n : nat) (H : vec → vec) : Prop :=
  (∀ v, length v = n → length (H v) = n) ∧
  (∀ u v, length u = n → length v = n → H (vadd u v) = vadd (H u) (H v)) ∧
  (∀ c v, length v = n → H (vscale c v) = vscale c (H v)) ∧
  (∀ u v, length u = n → length v = n → dot u (H v) = dot (H u) v) ∧
  (∀ v, length v = n → 0 ≤ dot v (H v)).

(** X1. With a strictly positive [cg_damping], the operator [fvp] handed to
    conjugate gradient is symmetric positive definite (and linear) whenever
    the Hessian of the KL divergence is linear, symmetric and positive
    semi-definite: adding [v * cg_damping] is what makes it definite. *)
Theorem fvp_damped_spd {St} (kl_hessian_vp : vec → list St → vec → vec) (a : agent)
    (theta : vec) (b_s : list St) (n : nat) :
  psd_hessian n (kl_hessian_vp theta b_s) →
  0 < cg_damping a →
  spd n (fvp kl_hessian_vp a theta b_s).
Proof.
  intros (Hlen & Hadd & Hscale & Hsym & Hpsd) Hdamp. unfold spd, fvp.
  split_and!.
  - intros v Hv. rewrite length_vadd; rewrite ?length_vscale, Hlen; done.
  - intros u v Hu Hv. rewrite Hadd, vscale_vadd by done. apply vadd_swap.
  - intros c v Hv. rewrite Hscale, vscale_vadd, vscale_vscale by done. done.
  - intros u v Hu Hv.
    rewrite dot_vadd_r, dot_vadd_l by (rewrite length_vscale, Hlen; congruence).
    rewrite dot_vscale_r, dot_vscale_l, Hsym by done. done.
  - intros v Hv Hnz.
    rewrite dot_vadd_r, dot_vscale_r by (rewrite length_vscale, Hlen; congruence).
    apply Qcplus_nonneg_pos; [by apply Hpsd|].
    apply Qcmult_pos_pos; [done|]. apply dot_self_pos. by rewrite Hv.
Qed.

Lemma toy_hessian_psd : psd_hessian 1 (toy.kl_hessian_vp toy.theta0 []).
Proof.
  assert (∀ x, toy.kl_hessian_vp toy.theta0 [] [x] = [x / qc 1 4]) as Hval.
  { intros x. unfold toy.kl_hessian_vp, toy.theta0, vdiv_scalar. simpl.
    by replace (qc 1 2 * (1 - qc 1 2)) with (qc 1 4) by qc_decide. }
  assert (∀ v : vec, length v = 1%nat → ∃ x, v = [x]) as Hone.
  { intros [|x [|]] [=]. eauto. }
  assert (∀ x : Qc, x / qc 1 4 = qc 4 1 * x) as Hfour.
  { intros x. unfold Qcdiv. rewrite Qcmult_comm. by f_equal. }
  unfold psd_hessian. split_and!.
  - intros v (x & ->)%Hone. by rewrite Hval.
  - intros u v (x & ->)%Hone (y & ->)%Hone.
    change (vadd [x] [y]) with [x + y]. rewrite !Hval.
    unfold vadd. simpl. f_equal. rewrite !Hfour. ring.
  - intros c v (x & ->)%Hone.
    change (vscale c [x]) with [c * x]. rewrite !Hval.
    unfold vscale. simpl. f_equal. rewrite !Hfour. ring.
  - intros u v (x & ->)%Hone (y & ->)%Hone. rewrite !Hval. unfold dot. simpl.
    rewrite !Hfour. ring.
  - intros v (x & ->)%Hone. rewrite Hval. unfold dot. simpl. rewrite Hfour.
    replace (x * (qc 4 1 * x) + 0) with (qc 4 1 * (x * x)) by ring.
    apply Qcmult_pos_nonneg; [qc_decide | apply Qcsquare_nonneg].
Qed.

Lemma fvp_damped_spd_witness :
  spd 1 (fvp toy.kl_hessian_vp toy.config toy.theta0 ([] : list unit)).
Proof.
  apply (fvp_damped_spd toy.kl_hessian_vp toy.config toy.theta0 [] 1).
  - exact toy_hessian_psd.
  - qc_decide.
Defined.

(** ** More on conjugate gradient *)

Section cg_on_spd.
Variables (n : nat) (op : vec → vec) (b : vec).
Hypothesis Hspd : spd n op.
Hypothesis Hb : length b = n.

Lemma quadratic_init : quadratic op b (cg_x (cg_init b)) = 0.
Proof.
  unfold quadratic, cg_init, zeros_like. simpl.
  rewrite dot_zeros_l, (dot_comm b), dot_zeros_l. by vm_compute.
Qed.

(** Along the iterations the invariant holds and the quadratic objective
    stays at or below its starting value. *)
Lemma cg_iterate_quadratic (k : nat) : ∀ s s',
  cg_inv n op b s → cg_iterate op k s = Some s' →
  cg_inv n op b s' ∧ quadratic op b (cg_x s') ≤ quadratic op b (cg_x s).
Proof.
  induction k as [|k IH]; intros s s' Hinv; simpl.
  - intros [= <-]. done.
  - destruct (cg_iter op s) as [s1|] eqn:Hiter; [|done]. simpl. intros Hk.
    destruct (cg_iter_inv n op b Hspd Hb s s1 Hinv Hiter) as [Hinv1 Hq1].
    destruct (IH s1 s' Hinv1 Hk) as [Hinv' Hq']. split; [done|]. by etrans.
Qed.

(** The state [cg] leaves the loop with. *)
Lemma cg_final_state (a : agent) (x : vec) :
  cg a op b = Some x →
  ∃ s, cg_iterate op (cg_calls a op b) (cg_init b) = Some s ∧ cg_x s = x ∧
       ((cg_calls a op b < cg_iters a)%nat → cg_rdotr s < cg_tol a).
Proof.
  unfold cg, cg_calls, cg_run.
  destruct (cg_loop_spec op (cg_tol a) (cg_iters a) (cg_init b))
    as (_ & Hit & Hexit & _).
  destruct (cg_loop op (cg_tol a) (cg_iters a) (cg_init b)) as [k [s|]] eqn:Hloop;
    simpl in *; [|done].
  intros [= <-]. exists s. split_and!; [done | done |]. by apply Hexit.
Qed.

(** With a positive [rdotr] both divisors of the body are non-zero. *)
Lemma cg_iter_total (s : cg_state) :
  cg_inv n op b s → 0 < cg_rdotr s → is_Some (cg_iter op s).
Proof.
  intros (Hx & Hr & Hp & Hres & Hrr & Hpr) Hpos.
  destruct Hspd as (_ & _ & _ & _ & Hdef).
  assert (cg_p s ≠ replicate n 0) as Hpnz.
  { intros Hz. rewrite Hz, dot_zeros_l, <- Hrr in Hpr. rewrite <- Hpr in Hpos.
    by apply (irreflexivity Qclt) in Hpos. }
  assert (dot (cg_p s) (op (cg_p s)) ≠ 0) as Hpz.
  { intros Hz. pose proof (Hdef _ Hp Hpnz) as H. rewrite Hz in H.
    by apply (irreflexivity Qclt) in H. }
  assert (cg_rdotr s ≠ 0) as Hrnz.
  { intros Hz. rewrite Hz in Hpos. by apply (irreflexivity Qclt) in Hpos. }
  unfold cg_iter. rewrite qdiv_Some by done. simpl. by rewrite qdiv_Some.
Qed.
End cg_on_spd.

(** X2. In exact arithmetic, on a symmetric positive-definite operator, with
    a positive [cg_tol] and a target [b] that is not zero, [cg] never
    divides by zero: at the top of every iteration that is entered [rdotr]
    is positive, so [p] is not zero and [p·z] is positive.  [cg] therefore
    returns a vector, of the length of [b]. *)
Theorem cg_never_divides_by_zero (a : agent) (n : nat) (op : vec → vec) (b : vec) :
  spd n op → length b = n → 0 < cg_tol a → b ≠ replicate n 0 →
  ∃ x, cg a op b = Some x ∧ length x = n.
Proof.
  intros Hspd Hb Htol Hnz.
  assert (∀ k s, cg_inv n op b s → 0 < cg_rdotr s →
            ∃ s', (cg_loop op (cg_tol a) k s).2 = Some s' ∧ cg_inv n op b s')
    as Hloop.
  { induction k as [|k IH]; intros s Hinv Hpos; [by exists s|].
    rewrite cg_loop_unfold.
    destruct (cg_iter_total n op b Hspd s Hinv Hpos) as [s1 Hiter].
    rewrite Hiter.
    destruct (cg_iter_inv n op b Hspd Hb s s1 Hinv Hiter) as [Hinv1 _].
    destruct (Qcltb (cg_rdotr s1) (cg_tol a)) eqn:Htest; [by exists s1|].
    apply Qcltb_ge in Htest.
    destruct (IH s1 Hinv1) as (s' & Hs' & Hinv');
      [eapply Qclt_le_trans; [exact Htol | exact Htest]|].
    exists s'. by destruct (cg_loop op (cg_tol a) k s1). }
  destruct (Hloop (cg_iters a) (cg_init b)) as (s' & Hs' & Hinv').
  - by apply cg_inv_init.
  - simpl. apply dot_self_pos. by rewrite Hb.
  - exists (cg_x s'). unfold cg, cg_run. rewrite Hs'. split; [done|].
    by destruct Hinv'.
Qed.

(** X3. In exact arithmetic, on a symmetric positive-definite operator the
    residual that [cg] updates incrementally is the true residual of the
    vector it returns: when the loop is left before [cg_iters] iterations,
    the returned [x] has the length of [b] and satisfies
    |b - A·x|² < [cg_tol].  (In floating point the two residuals differ by
    the rounding of the recurrence.) *)
Theorem cg_early_exit_residual (a : agent) (n : nat) (op : vec → vec) (b x : vec) :
  spd n op → length b = n →
  cg a op b = Some x →
  length x = n ∧
  ((cg_calls a op b < cg_iters a)%nat →
   dot (vsub b (op x)) (vsub b (op x)) < cg_tol a).
Proof.
  intros Hspd Hb Hcg.
  destruct (cg_final_state op b a x Hcg) as (s & Hs & <- & Hexit).
  destruct (cg_iterate_quadratic n op b Hspd Hb _ _ _ (cg_inv_init n op b Hspd Hb) Hs)
    as [(Hx & _ & _ & Hres & Hrr & _) _].
  split; [done|]. intros Hlt. rewrite <- Hres, <- Hrr. by apply Hexit.
Qed.

(** The quadratic objective at the returned vector is at most its value 0
    at the start. *)
Lemma cg_quadratic_nonpos (a : agent) (n : nat) (op : vec → vec) (b x : vec) :
  spd n op → length b = n → cg a op b = Some x →
  length x = n ∧ quadratic op b x ≤ 0.
Proof.
  intros Hspd Hb Hcg.
  destruct (cg_final_state op b a x Hcg) as (s & Hs & <- & _).
  destruct (cg_iterate_quadratic n op b Hspd Hb _ _ _ (cg_inv_init n op b Hspd Hb) Hs)
    as [(Hx & _) Hq].
  by rewrite quadratic_init in Hq.
Qed.

Lemma spd_nonneg (n : nat) (op : vec → vec) (x : vec) :
  spd n op → length x = n → 0 ≤ dot x (op x).
Proof.
  intros (_ & _ & _ & _ & Hpos) Hx.
  destruct (decide (x = replicate n 0)) as [->|Hnz].
  - by rewrite dot_zeros_l.
  - apply Qclt_le_weak. by apply Hpos.
Qed.

(** X4. On a symmetric positive-definite operator the vector [x] returned by
    [cg] is never worse than the zero vector it starts from:
    x·A·x ≤ 2 b·x, hence b·x ≥ 0 and x·A·x ≥ 0.  With [b = -pg] this says
    that the step direction is not an ascent direction of the loss and that
    [shs] is not negative. *)
Theorem cg_descent_direction (a : agent) (n : nat) (op : vec → vec) (b x : vec) :
  spd n op → length b = n →
  cg a op b = Some x →
  dot x (op x) ≤ (1 + 1) * dot b x ∧ 0 ≤ dot x (op x) ∧ 0 ≤ dot b x.
Proof.
  intros Hspd Hb Hcg.
  destruct (cg_quadratic_nonpos a n op b x Hspd Hb Hcg) as [Hx Hq].
  pose proof (spd_nonneg n op x Hspd Hx) as Hpsd.
  unfold quadratic in Hq.
  set (q := dot x (op x)) in *. set (l := dot b x) in *.
  clearbody q l. clear - Hq Hpsd. qc2q.
  generalize dependent (this q). generalize dependent (this l). intros l' q' Hq Hpsd.
  assert (/ (1 + 1) == 1 # 2)%Q as Hhalf by reflexivity. rewrite Hhalf in Hq.
  split_and!; lra.
Qed.

Lemma A_spec_spd : spd 2 (matvec A_spec).
Proof.
  unfold spd. split_and!.
  - done.
  - intros u v (u1 & u2 & ->)%length_2_inv (v1 & v2 & ->)%length_2_inv.
    unfold matvec, A_spec, vadd, dot. simpl. f_equal; [|f_equal]; ring.
  - intros c v (v1 & v2 & ->)%length_2_inv.
    unfold matvec, A_spec, vscale, dot. simpl. f_equal; [|f_equal]; ring.
  - intros u v (u1 & u2 & ->)%length_2_inv (v1 & v2 & ->)%length_2_inv.
    unfold matvec, A_spec, dot, qc. simpl. ring.
  - intros v (v1 & v2 & ->)%length_2_inv Hv.
    assert (v1 ≠ 0 ∨ v2 ≠ 0) as Hnz.
    { destruct (decide (v1 = 0)) as [->|]; [|by left].
      destruct (decide (v2 = 0)) as [->|]; [|by right]. done. }
    unfold matvec, A_spec, dot, qc. simpl. clear Hv. qc2q.
    generalize dependent (this v1). generalize dependent (this v2).
    intros y x Hnz.
    assert (0 <= (x + y) * (x + y))%Q as Hsq.
    { generalize (x + y)%Q. intros z. nra. }
    destruct Hnz; nra.
Qed.

Lemma cg_never_divides_by_zero_witness :
  ∃ x, cg default_agent (matvec A_spec) b_spec = Some x ∧ length x = 2%nat.
Proof.
  apply (cg_never_divides_by_zero default_agent 2 (matvec A_spec) b_spec).
  - exact A_spec_spd.
  - reflexivity.
  - qc_decide.
  - apply (bool_decide_unpack _). vm_compute. exact I.
Defined.

Lemma cg_early_exit_residual_witness :
  length [qc 2 1; qc (-2) 1] = 2%nat ∧
  ((cg_calls default_agent (matvec A_spec) b_spec < cg_iters default_agent)%nat →
   dot (vsub b_spec (matvec A_spec [qc 2 1; qc (-2) 1]))
       (vsub b_spec (matvec A_spec [qc 2 1; qc (-2) 1])) < cg_tol default_agent).
Proof.
  apply (cg_early_exit_residual default_agent 2 (matvec A_spec) b_spec
           [qc 2 1; qc (-2) 1]).
  - exact A_spec_spd.
  - reflexivity.
  - qc_decide.
Defined.

Lemma cg_descent_direction_witness :
  dot [qc 2 1; qc (-2) 1] (matvec A_spec [qc 2 1; qc (-2) 1]) ≤
    (1 + 1) * dot b_spec [qc 2 1; qc (-2) 1] ∧
  0 ≤ dot [qc 2 1; qc (-2) 1] (matvec A_spec [qc 2 1; qc (-2) 1]) ∧
  0 ≤ dot b_spec [qc 2 1; qc (-2) 1].
Proof.
  apply (cg_descent_direction default_agent 2 (matvec A_spec) b_spec
           [qc 2 1; qc (-2) 1]).
  - exact A_spec_spd.
  - reflexivity.
  - qc_decide.
Defined.

(** ** Returns as discounted sums *)

(** [r_0 + gamma r_1 + gamma^2 r_2 + ...]. *)
Definition discounted_sum (gamma : Qc) (rs : list Qc) : Qc :=
  vsum (imap (λ k r, gamma ^ k * r) rs).

Lemma vsum_imap_scale (c : Qc) (rs : list Qc) : ∀ f g : nat → Qc → Qc,
  (∀ k r, f k r = c * g k r) →
  vsum (imap f rs) = c * vsum (imap g rs).
Proof.
  unfold vsum. induction rs as [|r rs IH]; intros f g Hfg; simpl; [ring|].
  rewrite (IH (f ∘ S) (g ∘ S)) by (intros k x; apply Hfg).
  rewrite Hfg. ring.
Qed.

Lemma discounted_sum_cons (gamma r : Qc) (rs : list Qc) :
  discounted_sum gamma (r :: rs) = r + gamma * discounted_sum gamma rs.
Proof.
  unfold discounted_sum. simpl. unfold vsum at 1. simpl.
  fold (vsum (imap ((λ k r0, gamma ^ k * r0) ∘ S) rs)).
  rewrite (vsum_imap_scale gamma rs _ (λ k r0, gamma ^ k * r0)).
  - ring.
  - intros k x. simpl. ring.
Qed.

Lemma head_returns (gamma : Qc) (ep : list Qc) :
  default 0 (head (returns gamma ep)) = discounted_sum gamma ep.
Proof.
  induction ep as [|r ep IH]; [done|].
  rewrite discounted_sum_cons, <- IH. simpl. ring.
Qed.

Lemma returns_lookup_sum (gamma : Qc) (ep : list Qc) : ∀ j,
  (j < length ep)%nat →
  returns gamma ep !! j = Some (discounted_sum gamma (drop j ep)).
Proof.
  induction ep as [|r ep IH]; intros j Hj; simpl in Hj; [lia|].
  destruct j as [|j].
  - rewrite <- head_lookup, <- head_returns. simpl.
    by destruct (returns gamma ep).
  - simpl. apply IH. lia.
Qed.

(** X5. The value the discount loop leaves at a step is the discounted sum
    of the rewards from that step to the end of its episode,
    r_j + gamma r_(j+1) + gamma² r_(j+2) + ...; entries collected before the
    episode are not touched. *)
Theorem returns_are_discounted_sums (gamma : Qc) (pre ep : list Qc) :
  ∃ ret,
    discount_episode gamma (length ep) (pre ++ ep) = Some (pre ++ ret) ∧
    length ret = length ep ∧
    ∀ j, (j < length ep)%nat →
         ret !! j = Some (vsum (imap (λ k r, gamma ^ k * r) (drop j ep))).
Proof.
  exists (returns gamma ep). split_and!.
  - apply discount_episode_app.
  - apply returns_length.
  - apply returns_lookup_sum.
Qed.

(** ** Batches *)

(** All four columns have the same number of rows. *)
Definition aligned {St} (tr : trajectories St) : Prop :=
  length (t_a tr) = length (t_s tr) ∧
  length (t_r tr) = length (t_s tr) ∧
  length (t_p tr) = length (t_s tr).

Lemma slice_width {A} (l : list A) (i w : nat) : slice l i (i + w) = take w (drop i l).
Proof. unfold slice. f_equal. lia. Qed.

Lemma chunks_concat {A} (bs : nat) : ∀ (m : nat) (l : list A),
  (length l ≤ m * bs)%nat →
  concat ((λ k, take bs (drop (k * bs) l)) <$> seq 0 m) = l.
Proof.
  induction m as [|m IH]; intros l Hl.
  - destruct l; [done | simpl in Hl; lia].
  - rewrite <- cons_seq, <- fmap_S_seq, fmap_cons, <- list_fmap_compose.
    rewrite concat_cons. simpl. rewrite drop_0.
    transitivity (take bs l ++ drop bs l); [|apply take_drop]. f_equal.
    etrans; [|apply (IH (drop bs l)); rewrite length_drop; lia].
    f_equal. apply list_fmap_ext. intros _ k _. simpl.
    rewrite drop_drop. done.
Qed.

Lemma ceil_div_covers (len bs : nat) :
  bs ≠ 0%nat → (len ≤ (len + bs - 1) / bs * bs)%nat.
Proof.
  intros Hbs. pose proof (Nat.div_mod_eq (len + bs - 1) bs) as Hdm.
  pose proof (Nat.mod_upper_bound (len + bs - 1) bs Hbs). nia.
Qed.

Lemma ceil_div_tight (len bs k : nat) :
  bs ≠ 0%nat → (k < (len + bs - 1) / bs)%nat → (k * bs < len)%nat.
Proof.
  intros Hbs Hk. pose proof (Nat.div_mod_eq (len + bs - 1) bs) as Hdm.
  pose proof (Nat.mod_upper_bound (len + bs - 1) bs Hbs). nia.
Qed.

(** X6. The batch loop cuts the collected trajectory into consecutive
    batches that cover it exactly once and in order: for a non-zero
    [batch_size] and aligned columns, the batches put end to end give back
    each of the four columns, every batch has between 1 and [batch_size]
    rows in all its columns, and there are ceil(rows / batch_size) of
    them. *)
Theorem batches_partition {St} (tr : trajectories St) (batch_size : nat) :
  batch_size ≠ 0%nat → aligned tr →
  ∃ idx,
    xrange_step (length (t_s tr)) batch_size = Some idx ∧
    length idx = ((length (t_s tr) + batch_size - 1) / batch_size)%nat ∧
    concat ((λ i, t_s (batch_at tr i batch_size)) <$> idx) = t_s tr ∧
    concat ((λ i, t_a (batch_at tr i batch_size)) <$> idx) = t_a tr ∧
    concat ((λ i, t_r (batch_at tr i batch_size)) <$> idx) = t_r tr ∧
    concat ((λ i, t_p (batch_at tr i batch_size)) <$> idx) = t_p tr ∧
    Forall (λ i, aligned (batch_at tr i batch_size) ∧
                 (1 ≤ length (t_s (batch_at tr i batch_size)) ≤ batch_size)%nat) idx.
Proof.
  intros Hbs (Ha & Hr & Hp). unfold xrange_step. rewrite decide_False by done.
  set (m := ((length (t_s tr) + batch_size - 1) / batch_size)%nat).
  eexists. split; [done|].
  assert (∀ {A} (l : list A), length l = length (t_s tr) →
            concat ((λ i, slice l i (i + batch_size)) <$>
                    ((λ k, k * batch_size)%nat <$> seq 0 m)) = l) as Hcover.
  { intros A l Hl. rewrite <- list_fmap_compose.
    etrans; [|apply (chunks_concat batch_size m l); rewrite Hl;
               by apply ceil_div_covers].
    f_equal. apply list_fmap_ext. intros _ k _. simpl. apply slice_width. }
  split_and!.
  - by rewrite length_fmap, length_seq.
  - by apply (Hcover St (t_s tr)).
  - by apply (Hcover nat (t_a tr)).
  - by apply (Hcover Qc (t_r tr)).
  - by apply (Hcover vec (t_p tr)).
  - apply Forall_fmap, Forall_forall. intros k Hk%elem_of_seq. simpl.
    assert (k * batch_size < length (t_s tr))%nat as Hlt
      by (apply ceil_div_tight; [done | lia]).
    unfold aligned, batch_at. simpl. rewrite !slice_width.
    rewrite !length_take, !length_drop, Ha, Hr, Hp. lia.
Qed.

Lemma batches_partition_witness :
  ∃ idx,
    xrange_step (length (t_s toy.collected)) 3 = Some idx ∧
    length idx = ((length (t_s toy.collected) + 3 - 1) / 3)%nat ∧
    concat ((λ i, t_s (batch_at toy.collected i 3)) <$> idx) = t_s toy.collected ∧
    concat ((λ i, t_a (batch_at toy.collected i 3)) <$> idx) = t_a toy.collected ∧
    concat ((λ i, t_r (batch_at toy.collected i 3)) <$> idx) = t_r toy.collected ∧
    concat ((λ i, t_p (batch_at toy.collected i 3)) <$> idx) = t_p toy.collected ∧
    Forall (λ i, aligned (batch_at toy.collected i 3) ∧
                 (1 ≤ length (t_s (batch_at toy.collected i 3)) ≤ 3)%nat) idx.
Proof.
  apply (batches_partition toy.collected 3); [lia|].
  unfold aligned. simpl. done.
Defined.

(** ** Sampling, and the first steps of the batch body *)

(** X7. Sampling only reads the agent: with the live policy in place, the
    rollouts are recorded with the world left exactly as it was, every
    environment step adds one row to each of the four columns (so aligned
    columns stay aligned), and states and actions are recorded in order as
    the environment and the sampler produced them. *)
Theorem sample_appends_aligned_rows {St} (policy_forward : vec → St → vec)
    (a : agent) (self_policy : nat) (episodes : list (list (env_step St)))
    (tr : trajectories St) (w : world) (theta : vec) :
  models w !! self_policy = Some theta → aligned tr →
  ∃ tr',
    sample policy_forward a self_policy episodes tr w = (Some tr', w) ∧
    aligned tr' ∧
    length (t_s tr') = (length (t_s tr) + sum_list (length <$> episodes))%nat ∧
    t_s tr' = t_s tr ++ (obs <$> concat episodes) ∧
    t_a tr' = t_a tr ++ (action <$> concat episodes).
Proof.
  intros Hlive (Ha & Hr & Hp). eexists.
  split; [by apply (sample_spec _ _ _ theta)|]. simpl.
  assert (length (concat ((λ ep, returns (reward_gamma a) (reward <$> ep)) <$> episodes))
          = length (concat episodes)) as Hret.
  { induction episodes as [|ep rest IH]; [done|].
    rewrite fmap_cons, !concat_cons, !length_app, IH.
    by rewrite returns_length, length_fmap. }
  assert (length (concat episodes) = sum_list (length <$> episodes)) as Hsum.
  { clear Hret. induction episodes as [|ep rest IH]; [done|].
    rewrite concat_cons, length_app, fmap_cons. simpl. by rewrite <- IH. }
  unfold aligned. simpl. rewrite !length_app, !length_fmap, Hret, Ha, Hr, Hp, Hsum.
  done.
Qed.

Lemma sample_appends_aligned_rows_witness :
  ∃ tr',
    sample toy.policy toy.config toy.self_policy toy.episodes
      (Trajectories [] [] [] []) toy.w0 = (Some tr', toy.w0) ∧
    aligned tr' ∧
    length (t_s tr') = (0 + sum_list (length <$> toy.episodes))%nat ∧
    t_s tr' = [] ++ (obs <$> concat toy.episodes) ∧
    t_a tr' = [] ++ (action <$> concat toy.episodes).
Proof.
  apply (sample_appends_aligned_rows toy.policy toy.config toy.self_policy
           toy.episodes (Trajectories [] [] [] []) toy.w0 toy.theta0).
  - reflexivity.
  - unfold aligned. simpl. done.
Defined.

Section short_batch.
Context {St : Type}.
Variable value_forward : vec → St → Qc.
Variable sqrt_ : Qc → option Qc.

Lemma standardize_short (v : vec) : (length v ≤ 1)%nat → standardize sqrt_ v = None.
Proof.
  intros Hv. unfold standardize, std, variance, mean.
  destruct v as [|x [|y v]]; [| |simpl in Hv; lia].
  - by rewrite (proj2 (qdiv_None _ _)).
  - destruct (qdiv (vsum [x]) _) as [m|]; [|done]. cbn [mbind option_bind].
    assert (∀ y, qdiv y (Q2Qc (inject_Z (Z.of_nat (length [x]) - 1))) = None) as ->;
      [|done].
    intros y. apply qdiv_None. qc_decide.
Qed.

(** X8. When the number of collected rows is one more than a multiple of
    [batch_size] (with [batch_size = 1], always), the last batch the loop
    visits has a single row, and the advantage of a single row has no
    standardised value: its standard deviation is a sum of one square
    divided by n - 1 = 0 ([nan] in the program), whatever the return and
    whatever the value network predicts. *)
Theorem leftover_row_has_no_advantage (tr : trajectories St)
    (batch_size k : nat) (vtheta : vec) :
  aligned tr → batch_size ≠ 0%nat →
  length (t_s tr) = (k * batch_size + 1)%nat →
  let b := batch_at tr (k * batch_size) batch_size in
  ∃ idx,
    xrange_step (length (t_s tr)) batch_size = Some (idx ++ [(k * batch_size)%nat]) ∧
    length (t_s b) = 1%nat ∧ length (t_r b) = 1%nat ∧
    standardize sqrt_ (vsub (t_r b) (value_forward vtheta <$> t_s b)) = None.
Proof.
  intros (_ & Hr & _) Hbs Hlen b.
  assert (length (t_s b) = 1%nat ∧ length (t_r b) = 1%nat) as [Hs1 Hr1].
  { unfold b, batch_at. simpl. rewrite !slice_width.
    rewrite !length_take, !length_drop, Hr, Hlen. lia. }
  exists ((λ i, i * batch_size)%nat <$> seq 0 k). split_and!; [|done..|].
  - unfold xrange_step. rewrite decide_False by done. f_equal.
    assert ((length (t_s tr) + batch_size - 1) / batch_size = S k)%nat as ->.
    { rewrite Hlen.
      replace (k * batch_size + 1 + batch_size - 1)%nat
        with ((k + 1) * batch_size)%nat by lia.
      rewrite Nat.div_mul by done. lia. }
    by rewrite seq_S, fmap_app.
  - apply standardize_short. unfold vsub.
    rewrite length_zip_with, length_fmap. lia.
Qed.
End short_batch.

Lemma leftover_row_has_no_advantage_witness :
  let tr := batch_at toy.collected 0 4 in
  let b := batch_at tr (1 * 3) 3 in
  ∃ idx,
    xrange_step (length (t_s tr)) 3 = Some (idx ++ [(1 * 3)%nat]) ∧
    length (t_s b) = 1%nat ∧ length (t_r b) = 1%nat ∧
    standardize toy.sqrt_exact (vsub (t_r b) (toy.value [] <$> t_s b)) = None.
Proof.
  apply (leftover_row_has_no_advantage toy.value toy.sqrt_exact
           (batch_at toy.collected 0 4) 3 1 []).
  - unfold aligned. simpl. done.
  - lia.
  - reflexivity.
Defined.

(** ** The loss at the live parameters *)

Lemma vmul_ones_l (u : vec) (n : nat) : length u = n → vmul (replicate n 1) u = u.
Proof.
  intros <-. unfold vmul. induction u as [|x u IH]; simpl; [done|].
  by rewrite Qcmult_1_l, IH.
Qed.

(** X9. Evaluated at the live parameters themselves, [get_loss] is minus
    the batch mean of the advantage: the copy it builds computes the same
    probabilities as the live model, so every ratio is 1.  This is the
    value [fval] the line search compares its candidates with.  (The
    probabilities of the recorded actions are taken to be non-zero.) *)
Theorem get_loss_at_live_parameters {St} (policy_forward : vec → St → vec)
    (self_policy : nat) (b : trajectories St) (advantage live probs : vec)
    (w : world) :
  models w !! self_policy = Some live →
  gather (policy_forward live <$> t_s b) (t_a b) = Some probs →
  Forall (λ p, p ≠ 0) probs →
  length advantage = length probs → advantage ≠ [] →
  ∃ m w',
    mean advantage = Some m ∧
    get_loss policy_forward self_policy b advantage live w = (Some (- m), w') ∧
    extends w w'.
Proof.
  intros Hlive Hgather Hnz Hlen Hne.
  destruct (mean_is_Some advantage Hne) as [m Hm].
  destruct (get_loss_spec policy_forward self_policy b advantage live w live Hlive)
    as (w' & Hloss & Hext).
  exists m, w'. split_and!; [done | | done].
  rewrite Hloss. f_equal. unfold loss_value.
  rewrite Hgather. simpl. rewrite decide_True by done.
  rewrite firstn_all, Hgather. simpl. rewrite (vdiv_self probs Hnz). simpl.
  by rewrite vmul_ones_l, Hm.
Qed.

Lemma get_loss_at_live_parameters_witness :
  let b := batch_at toy.collected 0 3 in
  ∃ m w',
    mean [1; - 1; 0] = Some m ∧
    get_loss toy.policy toy.self_policy b [1; - 1; 0] toy.theta0 toy.w0 =
      (Some (- m), w') ∧
    extends toy.w0 w'.
Proof.
  apply (get_loss_at_live_parameters toy.policy toy.self_policy
           (batch_at toy.collected 0 3) [1; - 1; 0] toy.theta0
           [qc 1 2; qc 1 2; qc 1 2] toy.w0).
  - reflexivity.
  - qc_decide.
  - repeat constructor; apply Qc_neq_Q; vm_compute; discriminate.
  - reflexivity.
  - discriminate.
Defined.

(** ** When the line search gives up *)

Lemma Qcdiv_pos_neg (x y : Qc) : 0 < x → y < 0 → x / y < 0.
Proof.
  intros Hx Hy.
  assert (y ≠ 0) as Hy0.
  { intros ->. revert Hy. apply (irreflexivity Qclt). }
  assert (x / y * y = x) as Hq by (field; done).
  set (q := x / y) in *. clearbody q.
  apply Qcnot_le_lt. intros Hq0. qc2q.
  generalize dependent (this x). generalize dependent (this y).
  generalize dependent (this q). intros q' Hq0 y' Hy _ x' Hx Hq. nra.
Qed.

(** X10. The search gives up, returning the start [x] with the flag
    [False], whenever each of its [ls_iters] candidates either does not
    lower the loss or is tried against a negative expected improvement rate
    (with [accept_ratio] not negative, a positive improvement over a
    negative prediction is a negative ratio, which is never accepted).  No
    division by a zero rate is reached on candidates that do not lower the
    loss. *)
Theorem line_search_gives_up (a : agent) (f : vec → Qc) (x fullstep : vec)
    (eir : Qc) (w : world) :
  (∀ i, (i < ls_iters a)%nat →
        f x ≤ f (candidate x fullstep i) ∨ (eir < 0 ∧ 0 ≤ accept_ratio a)) →
  line_search a (λ v, mret (f v)) x fullstep eir w = (Some (false, x), w).
Proof.
  intros Hrej. unfold line_search. rewrite bind_ret.
  assert (∀ n i, (i + n ≤ ls_iters a)%nat →
            ls_loop a (λ v, mret (f v)) x fullstep eir (f x) i n w =
            (Some (false, x), w)) as Hloop; [|by apply Hloop].
  induction n as [|n IH]; intros i Hi; [done|].
  cbn [ls_loop]. rewrite bind_ret.
  assert (ls_loop a (λ v, mret (f v)) x fullstep eir (f x) (S i) n w =
          (Some (false, x), w)) as Hnext by (apply IH; lia).
  destruct (Qcltb 0 (f x - f (candidate x fullstep i))) eqn:Hpos; [|done].
  apply Qcltb_lt in Hpos.
  destruct (Hrej i) as [Hle|[Hneg Hratio]]; [lia | |].
  { exfalso. apply Qclt_minus_iff in Hpos. by apply Qclt_not_le in Hpos. }
  assert (stepfrac i * eir < 0) as Hden.
  { rewrite <- (Qcmult_0_r (stepfrac i)), !(Qcmult_comm (stepfrac i)).
    apply Qcmult_lt_compat_r; [|done].
    destruct i as [|i]; [qc_decide | apply stepfrac_decreasing]. }
  cbv zeta. rewrite xdiv_Fin.
  2:{ intros Hz. rewrite Hz in Hden. revert Hden. apply (irreflexivity Qclt). }
  cbn [xgtb].
  assert (Qcltb (accept_ratio a)
            ((f x - f (candidate x fullstep i)) / (stepfrac i * eir)) = false) as ->;
    [|done].
  apply Qcltb_ge. etrans; [|exact Hratio].
  apply Qclt_le_weak. by apply Qcdiv_pos_neg.
Qed.

Lemma line_search_gives_up_witness :
  line_search toy.config (λ v, mret (dot v v)) [qc 1 2] [1] (- (1)) toy.w0 =
  (Some (false, [qc 1 2]), toy.w0).
Proof.
  apply (line_search_gives_up toy.config (λ v, dot v v) [qc 1 2] [1] (- (1)) toy.w0).
  intros i Hi. right. split; qc_decide.
Defined.

(** ** The policy update: step length and cost *)

Lemma dot_vneg_l (u v : vec) : dot (vneg u) v = - dot u v.
Proof.
  unfold dot, vneg. revert v.
  induction u as [|x u IH]; intros [|y v]; [done..|].
  rewrite fmap_cons. simpl. rewrite IH. ring.
Qed.

Lemma Qcdiv_nonneg (x y : Qc) : 0 ≤ x → 0 < y → 0 ≤ x / y.
Proof.
  intros Hx Hy.
  assert (y ≠ 0) as Hy0.
  { intros ->. revert Hy. apply (irreflexivity Qclt). }
  assert (x / y * y = x) as Hq by (field; done).
  set (q := x / y) in *. clearbody q.
  apply Qcnot_lt_le. intros Hq0. qc2q.
  generalize dependent (this x). generalize dependent (this y).
  generalize dependent (this q). intros q' Hq0 y' Hy _ x' Hx Hq. nra.
Qed.

Lemma cg_length (a : agent) (n : nat) (op : vec → vec) (b x : vec) :
  spd n op → length b = n → cg a op b = Some x → length x = n.
Proof. intros Hspd Hb Hcg. by destruct (cg_quadratic_nonpos a n op b x). Qed.

Lemma cg_calls_bound (a : agent) (op : vec → vec) (b : vec) :
  (cg_calls a op b ≤ cg_iters a)%nat.
Proof.
  unfold cg_calls, cg_run.
  by destruct (cg_loop_spec op (cg_tol a) (cg_iters a) (cg_init b)) as (Hk & _).
Qed.

(** Closes a case in which the update stops at the world on display. *)
Ltac stop_at_world :=
  match goal with
  | |- context [(None, ?W) = (None, _)] =>
      exists W; split_and!; [done | done | done | simpl; lia | simpl; lia | by left]
  end.

Section update_and_training.
Context {St : Type}.
Variable policy_forward : vec → St → vec.
Variable value_forward : vec → St → Qc.
Variable value_step : vec → list St → vec → vec.
Variable grad_neg_obj : vec → trajectories St → vec → vec.
Variable kl_hessian_vp : vec → list St → vec → vec.
Variable sqrt_ : Qc → option Qc.
Variable a : agent.
Variable self_policy : nat.

(** The update up to the search, with every intermediate value named. *)
Lemma policy_update_cases (b : trajectories St) (advantage pg : vec)
    (w : world) (live : vec) :
  models w !! self_policy = Some live →
  let op := fvp kl_hessian_vp a live (t_s b) in
  ∃ w0,
    models w0 = models w ∧ value_theta w0 = value_theta w ∧ log w0 = log w ∧
    (fvp_calls w ≤ fvp_calls w0 ≤ fvp_calls w + cg_iters a + 1)%nat ∧
    (policy_update policy_forward kl_hessian_vp sqrt_ a self_policy
       b advantage pg w = (None, w0) ∨
     ∃ stepdir q lm fullstep eir,
       cg a op (vneg pg) = Some stepdir ∧
       qdiv (qc 1 2 * dot stepdir (op stepdir)) (max_kl a) = Some q ∧
       sqrt_ q = Some lm ∧
       vdiv_scalar stepdir lm = Some fullstep ∧
       qdiv (- dot pg stepdir) lm = Some eir ∧
       fvp_calls w0 = (fvp_calls w + cg_calls a op (vneg pg) + 1)%nat ∧
       policy_update policy_forward kl_hessian_vp sqrt_ a self_policy
         b advantage pg w =
       search_and_apply policy_forward a self_policy b advantage fullstep eir w0).
Proof.
  intros Hlive op. unfold policy_update.
  rewrite bind_parameters_to_vector, Hlive. fold op.
  rewrite bind_modify, bind_lift.
  pose proof (cg_calls_bound a op (vneg pg)) as Hcalls.
  unfold cg, cg_calls in *.
  destruct (cg_x <$> _) as [stepdir|] eqn:Hcg.
  2:{ stop_at_world. }
  rewrite bind_modify, bind_lift.
  destruct (qdiv _ (max_kl a)) as [q|] eqn:Hq.
  2:{ stop_at_world. }
  rewrite bind_lift. destruct (sqrt_ q) as [lm|] eqn:Hlm.
  2:{ stop_at_world. }
  rewrite bind_lift. destruct (vdiv_scalar stepdir lm) as [fullstep|] eqn:Hfs.
  2:{ stop_at_world. }
  rewrite bind_lift. destruct (qdiv _ lm) as [eir|] eqn:Heir.
  2:{ stop_at_world. }
  match goal with
  | |- context [search_and_apply _ _ _ _ _ _ _ ?W = _] => exists W
  end.
  split_and!; [done | done | done | simpl; lia | simpl; lia |].
  right. exists stepdir, q, lm, fullstep, eir. split_and!; done.
Qed.

Lemma vdiv_scalar_Some (v : vec) (c : Qc) :
  c ≠ 0 → vdiv_scalar v c = Some (vscale (/ c) v).
Proof.
  intros Hc. unfold vdiv_scalar, vscale. apply mapM_Some.
  apply Forall2_fmap_r, Forall_Forall2_diag, Forall_forall. intros x _.
  rewrite qdiv_Some by done. f_equal. unfold Qcdiv. ring.
Qed.

(** X11. With a symmetric positive-definite Fisher operator, a step
    direction from [cg] that is not zero, a positive [max_kl] and a
    non-negative root [lm] whose square is within the factors [lo] and [hi]
    of [shs / max_kl] (an exact root has [lo = hi = 1], a rounded one has
    factors next to 1), the update reaches the line search, with the full
    step [stepdir / lm] and the rate [-pg·stepdir / lm].  The quadratic
    estimate of the KL divergence of the full step, fullstep·F·fullstep/2,
    is [max_kl] up to the same factors (exactly [max_kl] for an exact
    root), the step tried at index [i] has [0.25^i] times that estimate, and
    the rate is not negative.  (Apart from the root the arithmetic is
    exact.) *)
Theorem full_step_meets_kl_budget (b : trajectories St) (advantage pg : vec)
    (w : world) (live stepdir : vec) (lm lo hi : Qc) :
  let op := fvp kl_hessian_vp a live (t_s b) in
  let shs := qc 1 2 * dot stepdir (op stepdir) in
  let fullstep := vscale (/ lm) stepdir in
  let eir := - dot pg stepdir / lm in
  let kl (v : vec) := qc 1 2 * dot v (op v) in
  models w !! self_policy = Some live →
  spd (length pg) op →
  cg a op (vneg pg) = Some stepdir →
  stepdir ≠ replicate (length pg) 0 →
  0 < max_kl a →
  sqrt_ (shs / max_kl a) = Some lm →
  0 ≤ lm → 0 < lo →
  lo * (shs / max_kl a) ≤ lm * lm ≤ hi * (shs / max_kl a) →
  (∃ w0, models w0 = models w ∧
     policy_update policy_forward kl_hessian_vp sqrt_ a self_policy
       b advantage pg w =
     search_and_apply policy_forward a self_policy b advantage fullstep eir w0) ∧
  lo * kl fullstep ≤ max_kl a ≤ hi * kl fullstep ∧
  (∀ i, kl (vscale (stepfrac i) fullstep) =
        stepfrac i * stepfrac i * kl fullstep) ∧
  0 ≤ eir.
Proof.
  intros op shs fullstep eir kl Hlive Hspd Hcg Hnz Hmk Hsqrt Hlm0 Hlo [Hlow Hhigh].
  assert (length (vneg pg) = length pg) as Hb by apply length_fmap.
  pose proof (cg_length a _ op _ _ Hspd Hb Hcg) as Hlen.
  pose proof Hspd as (_ & _ & Hscale & _ & Hdef).
  assert (0 < shs) as Hshs.
  { unfold shs. apply Qcmult_pos_pos; [qc_decide | by apply Hdef]. }
  assert (max_kl a ≠ 0) as Hmk0.
  { intros Hz. rewrite Hz in Hmk. by apply (irreflexivity Qclt) in Hmk. }
  assert (shs / max_kl a * max_kl a = shs) as Hq by (field; done).
  set (q := shs / max_kl a) in *.
  assert (0 < lm) as Hlm.
  { apply Qcle_lt_or_eq in Hlm0 as [?|Hz]; [done|]. exfalso. subst lm.
    clearbody q shs. clear - Hshs Hmk Hq Hlo Hlow. qc2q.
    generalize dependent (this shs). generalize dependent (this (max_kl a)).
    generalize dependent (this lo). generalize dependent (this q).
    intros q' lo' Hlo Hlow mk' Hmk shs' Hq Hshs. nra. }
  assert (lm ≠ 0) as Hlmnz.
  { intros Hz. rewrite Hz in Hlm. by apply (irreflexivity Qclt) in Hlm. }
  assert (kl fullstep * (lm * lm) = shs) as Hkl.
  { unfold kl, fullstep, shs.
    rewrite Hscale, dot_vscale_l, dot_vscale_r by done. field. done. }
  split_and!.
  - unfold policy_update.
    rewrite bind_parameters_to_vector, Hlive. fold op.
    rewrite bind_modify, bind_lift.
    unfold cg in Hcg. rewrite Hcg.
    rewrite bind_modify, bind_lift. fold shs.
    rewrite qdiv_Some by done. fold q.
    rewrite bind_lift, Hsqrt.
    rewrite bind_lift, vdiv_scalar_Some by done.
    rewrite bind_lift, qdiv_Some by done.
    eexists. split; [|reflexivity]. done.
  - set (k := kl fullstep) in *. clearbody k q shs.
    clear - Hshs Hmk Hq Hlo Hlow Hlm Hkl. qc2q.
    generalize dependent (this shs). generalize dependent (this (max_kl a)).
    generalize dependent (this lo). generalize dependent (this q).
    generalize dependent (this lm). generalize dependent (this k).
    intros k' lm' Hlm q' lo' Hlo Hlow mk' Hmk shs' Hkl Hq Hshs.
    assert (0 < lm' * lm')%Q as Hsq by nra.
    assert (0 <= (lm' * lm' - lo' * q') * mk')%Q as H1 by nra.
    nra.
  - set (k := kl fullstep) in *. clearbody k q shs.
    clear - Hshs Hmk Hq Hhigh Hlm Hkl. qc2q.
    generalize dependent (this shs). generalize dependent (this (max_kl a)).
    generalize dependent (this hi). generalize dependent (this q).
    generalize dependent (this lm). generalize dependent (this k).
    intros k' lm' Hlm q' hi' Hhigh mk' Hmk shs' Hkl Hq Hshs.
    assert (0 < lm' * lm')%Q as Hsq by nra.
    assert (0 <= (hi' * q' - lm' * lm') * mk')%Q as H1 by nra.
    assert (hi' * k' * (lm' * lm') == hi' * shs')%Q as H2 by nra.
    assert (hi' * q' * mk' == hi' * shs')%Q as H3 by nra.
    assert (0 <= (hi' * k' - mk') * (lm' * lm'))%Q as H4 by nra.
    nra.
  - intros i. unfold kl.
    rewrite Hscale, dot_vscale_l, dot_vscale_r
      by (unfold fullstep; by rewrite length_vscale).
    ring.
  - unfold eir. apply Qcdiv_nonneg; [|done].
    destruct (cg_quadratic_nonpos a _ op _ _ Hspd Hb Hcg) as [_ Hquad].
    pose proof (spd_nonneg _ op stepdir Hspd Hlen) as Hpsd.
    unfold quadratic in Hquad. rewrite dot_vneg_l in Hquad.
    set (d := dot stepdir (op stepdir)) in *.
    set (l := dot pg stepdir) in *. clearbody d l. clear - Hquad Hpsd. qc2q.
    generalize dependent (this d). generalize dependent (this l).
    intros l' d' Hquad Hpsd.
    assert (/ (1 + 1) == 1 # 2)%Q as Hhalf by reflexivity. rewrite Hhalf in Hquad.
    lra.
Qed.

(** What the search and the write-back leave as they found it. *)
Lemma search_and_apply_frame (b : trajectories St) (advantage fullstep : vec)
    (eir : Qc) (w : world) (live : vec) :
  models w !! self_policy = Some live →
  ∃ r w',
    search_and_apply policy_forward a self_policy b advantage fullstep eir w = (r, w') ∧
    value_theta w' = value_theta w ∧ log w' = log w ∧ fvp_calls w' = fvp_calls w ∧
    ∃ theta', models w' !! self_policy = Some theta' ∧ length theta' = length live.
Proof.
  intros Hlive.
  destruct (search_and_apply_spec policy_forward a self_policy b advantage
              fullstep eir w live Hlive)
    as (r & w1 & _ & (_ & Hv & Hl & Hf) & Hlive1 & Hr).
  destruct r as [[[] new_theta]|].
  - destruct Hr as (_ & -> & _). unfold vector_to_parameters. rewrite Hlive1.
    destruct (decide (length live ≤ length new_theta)%nat) as [Hlen|Hlen].
    + eexists _, _. split; [done|]. simpl. split_and!; [done..|].
      exists (take (length live) new_theta).
      rewrite lookup_insert_eq, length_take. split; [done | lia].
    + eexists _, _. split; [done|]. split_and!; [done..|]. by exists live.
  - destruct Hr as (_ & ->). eexists _, _. split; [done|].
    split_and!; [done..|]. by exists live.
  - rewrite Hr. eexists _, _. split; [done|]. split_and!; [done..|]. by exists live.
Qed.

(** The update as a whole: what it costs and what it leaves alone. *)
Lemma policy_update_frame (b : trajectories St) (advantage pg : vec)
    (w : world) (live : vec) :
  models w !! self_policy = Some live →
  ∃ r w',
    policy_update policy_forward kl_hessian_vp sqrt_ a self_policy
      b advantage pg w = (r, w') ∧
    value_theta w' = value_theta w ∧ log w' = log w ∧
    (fvp_calls w ≤ fvp_calls w' ≤ fvp_calls w + cg_iters a + 1)%nat ∧
    ∃ theta', models w' !! self_policy = Some theta' ∧ length theta' = length live.
Proof.
  intros Hlive.
  destruct (policy_update_cases b advantage pg w live Hlive)
    as (w0 & Hm0 & Hv0 & Hl0 & Hf0 & Hcases).
  destruct Hcases as [->|(_ & _ & _ & fullstep & eir & _ & _ & _ & _ & _ & _ & ->)].
  { eexists _, _. split; [done|]. split_and!; [done | done | apply Hf0..|].
    exists live. by rewrite Hm0. }
  assert (models w0 !! self_policy = Some live) as Hlive0 by (by rewrite Hm0).
  destruct (search_and_apply_frame b advantage fullstep eir w0 live Hlive0)
    as (r & w' & -> & Hv & Hl & Hf & Hshape).
  exists r, w'. split; [done|]. rewrite Hf, Hl, Hv.
  split_and!; [done | done | apply Hf0..| done].
Qed.

(** The ways through the batch body after the value step: no advantage, no
    objective or no live policy; a zero gradient; the policy update. *)
Lemma learn_batch_cases (b : trajectories St) (w : world) :
  let body :=
    learn_batch policy_forward value_forward value_step grad_neg_obj
      kl_hessian_vp sqrt_ a self_policy b w in
  let wv := set_value_theta (value_step (value_theta w) (t_s b) (t_r b)) w in
  body = (None, wv) ∨
  body = (Some (), add_log zero_gradient_warning wv) ∨
  ∃ live advantage pg,
    models w !! self_policy = Some live ∧
    body = policy_update policy_forward kl_hessian_vp sqrt_ a self_policy
             b advantage pg wv.
Proof.
  cbv zeta. unfold learn_batch, value_parameters.
  rewrite bind_unfold. cbv beta zeta. rewrite bind_modify, bind_lift.
  destruct (standardize _ _) as [advantage|]; [|by left].
  rewrite bind_lift.
  destruct (surrogate b advantage) as [o|]; [|by left].
  rewrite bind_parameters_to_vector. cbn [models set_value_theta].
  destruct (models w !! self_policy) as [live|] eqn:Hlive; [|by left].
  destruct (allclose0 _); [right; by left|].
  right. right. by eexists live, advantage, _.
Qed.

(** X12. What one pass of the batch body costs and touches, whatever its
    outcome: at most [cg_iters + 1] Fisher-vector products (those of [cg]
    and the one for [shs]; the line search needs none); the log is as
    before or has the zero-gradient warning appended, and in that case no
    product was computed and the model heap is as before; the value
    network has its old parameters or those of one optimizer step. *)
Theorem batch_cost_and_frame (b : trajectories St) (w : world) :
  ∃ r w',
    learn_batch policy_forward value_forward value_step grad_neg_obj
      kl_hessian_vp sqrt_ a self_policy b w = (r, w') ∧
    (fvp_calls w ≤ fvp_calls w' ≤ fvp_calls w + cg_iters a + 1)%nat ∧
    (log w' = log w ∨
     log w' = log w ++ [zero_gradient_warning] ∧ fvp_calls w' = fvp_calls w ∧
     models w' = models w) ∧
    (value_theta w' = value_theta w ∨
     value_theta w' = value_step (value_theta w) (t_s b) (t_r b)).
Proof.
  destruct (learn_batch_cases b w)
    as [->|[->|(live & advantage & pg & Hlive & ->)]].
  - eexists _, _. split; [done|]. simpl.
    split_and!; [lia | lia | by left | by right].
  - eexists _, _. split; [done|]. simpl.
    split_and!; [lia | lia | by right | by right].
  - set (wv := set_value_theta _ w).
    assert (models wv !! self_policy = Some live) as Hlivev by done.
    destruct (policy_update_frame b advantage pg wv live Hlivev)
      as (r & w' & -> & Hv & Hl & Hf & _).
    exists r, w'. split; [done|]. rewrite Hl, Hv.
    split_and!; [apply Hf | apply Hf | by left | by right].
Qed.

(** The live policy is still there, with as many parameters. *)
Definition keeps_shape (w w' : world) : Prop :=
  ∀ theta, models w !! self_policy = Some theta →
    ∃ theta', models w' !! self_policy = Some theta' ∧ length theta' = length theta.

Lemma keeps_shape_refl (w : world) : keeps_shape w w.
Proof. intros theta Hlive. by exists theta. Qed.

Lemma keeps_shape_trans (w1 w2 w3 : world) :
  keeps_shape w1 w2 → keeps_shape w2 w3 → keeps_shape w1 w3.
Proof.
  intros H12 H23 theta Hlive.
  destruct (H12 theta Hlive) as (theta2 & Hlive2 & Hlen2).
  destruct (H23 theta2 Hlive2) as (theta3 & Hlive3 & Hlen3).
  exists theta3. split; [done | congruence].
Qed.

Lemma for_M_keeps_shape {A} (body : A → M ()) (l : list A) :
  (∀ x w, keeps_shape w (body x w).2) →
  ∀ w, keeps_shape w (for_M body l w).2.
Proof.
  intros Hbody. induction l as [|x l IH]; intros w; [apply keeps_shape_refl|].
  cbn [for_M]. rewrite bind_unfold. specialize (Hbody x w).
  destruct (body x w) as [[[]|] w1]; [|done].
  eapply keeps_shape_trans; [exact Hbody | apply IH].
Qed.

Lemma learn_batch_keeps_shape (b : trajectories St) (w : world) :
  keeps_shape w
    (learn_batch policy_forward value_forward value_step grad_neg_obj
       kl_hessian_vp sqrt_ a self_policy b w).2.
Proof.
  intros theta Hlive.
  destruct (learn_batch_cases b w)
    as [->|[->|(live & advantage & pg & Hlive' & ->)]];
    [by exists theta..|].
  set (wv := set_value_theta _ w).
  assert (models wv !! self_policy = Some theta) as Hlivev by done.
  destruct (policy_update_frame b advantage pg wv theta Hlivev)
    as (r & w' & -> & _ & _ & _ & Hshape).
  exact Hshape.
Qed.

Lemma learn_iter_keeps_shape (episodes : list (list (env_step St)))
    (batch_size : nat) (w : world) :
  keeps_shape w
    (learn_iter policy_forward value_forward value_step grad_neg_obj
       kl_hessian_vp sqrt_ a self_policy episodes batch_size w).2.
Proof.
  intros theta Hlive. unfold learn_iter. rewrite bind_unfold.
  rewrite (sample_spec policy_forward a self_policy theta) by done.
  unfold train_batches. rewrite bind_lift.
  destruct (xrange_step _ _) as [idx|]; [|by exists theta].
  refine (for_M_keeps_shape _ idx _ w theta Hlive). intros index w1.
  apply learn_batch_keeps_shape.
Qed.

(** X13. Training never loses the live policy or changes its shape: from a
    world in which [self._policy] has a parameter vector, after any number
    of iterations of [learn], with any rollouts and batch size and whether
    or not the run ends normally, [self._policy] has a parameter vector of
    the same length. *)
Theorem training_keeps_policy_shape (rollouts : list (list (list (env_step St))))
    (batch_size : nat) (w : world) (theta : vec) :
  models w !! self_policy = Some theta →
  ∃ r w' theta',
    learn policy_forward value_forward value_step grad_neg_obj
      kl_hessian_vp sqrt_ a self_policy rollouts batch_size w = (r, w') ∧
    models w' !! self_policy = Some theta' ∧ length theta' = length theta.
Proof.
  intros Hlive. unfold learn.
  pose proof (for_M_keeps_shape
    (λ episodes, learn_iter policy_forward value_forward value_step grad_neg_obj
       kl_hessian_vp sqrt_ a self_policy episodes batch_size) rollouts
    (λ episodes w1, learn_iter_keeps_shape episodes batch_size w1) w theta Hlive)
    as (theta' & Hlive' & Hlen).
  destruct (for_M _ rollouts w) as [r w'] eqn:Hrun. by exists r, w', theta'.
Qed.
End update_and_training.

(** The toy instance meets the assumptions: its damped Fisher operator is
    [v ↦ 8 v], and its square root is exact where it answers. *)
Lemma toy_fvp_spd (b_s : list unit) :
  spd 1 (fvp toy.kl_hessian_vp toy.config toy.theta0 b_s).
Proof.
  assert (∀ x, fvp toy.kl_hessian_vp toy.config toy.theta0 b_s [x] = [qc 8 1 * x])
    as Hval.
  { intros x. unfold fvp, toy.kl_hessian_vp, toy.theta0, vdiv_scalar. simpl.
    replace (qc 1 2 * (1 - qc 1 2)) with (qc 1 4) by qc_decide.
    f_equal.
    replace (qc 8 1) with (/ qc 1 4 + qc 4 1) by qc_decide.
    unfold Qcdiv. ring. }
  assert (∀ v : vec, length v = 1%nat → ∃ x, v = [x]) as Hone.
  { intros [|x [|]] [=]. eauto. }
  unfold spd. split_and!.
  - intros v (x & ->)%Hone. by rewrite Hval.
  - intros u v (x & ->)%Hone (y & ->)%Hone.
    change (vadd [x] [y]) with [x + y]. rewrite !Hval.
    unfold vadd. simpl. f_equal. ring.
  - intros c v (x & ->)%Hone.
    change (vscale c [x]) with [c * x]. rewrite !Hval.
    unfold vscale. simpl. f_equal. ring.
  - intros u v (x & ->)%Hone (y & ->)%Hone. rewrite !Hval. unfold dot. simpl. ring.
  - intros v (x & ->)%Hone Hnz. rewrite Hval. unfold dot. simpl.
    replace (x * (qc 8 1 * x) + 0) with (qc 8 1 * (x * x)) by ring.
    apply Qcmult_pos_pos; [qc_decide|]. apply Qcsquare_pos.
    intros ->. by apply Hnz.
Qed.

(** The toy update with the approximate root: [shs / max_kl] is 25/4, the
    root returned is above 5/2 by less than one part in a million. *)
Lemma full_step_meets_kl_budget_witness :
  let b := batch_at toy.collected 0 3 in
  let op := fvp toy.kl_hessian_vp toy.config toy.theta0 (t_s b) in
  let lm := default 0 (toy.sqrt_newton (qc 25 4)) in
  let hi := qc 1000001 1000000 in
  let fullstep := vscale (/ lm) [qc 1 8] in
  let eir := - dot [- (1)] [qc 1 8] / lm in
  let kl (v : vec) := qc 1 2 * dot v (op v) in
  (∃ w0, models w0 = models toy.w0 ∧
     policy_update toy.policy toy.kl_hessian_vp toy.sqrt_newton toy.config
       toy.self_policy b [1; - 1; 0] [- (1)] toy.w0 =
     search_and_apply toy.policy toy.config toy.self_policy b [1; - 1; 0]
       fullstep eir w0) ∧
  1 * kl fullstep ≤ max_kl toy.config ≤ hi * kl fullstep ∧
  (∀ i, kl (vscale (stepfrac i) fullstep) =
        stepfrac i * stepfrac i * kl fullstep) ∧
  0 ≤ eir.
Proof.
  apply (full_step_meets_kl_budget toy.policy toy.kl_hessian_vp toy.sqrt_newton
           toy.config toy.self_policy (batch_at toy.collected 0 3)
           [1; - 1; 0] [- (1)] toy.w0 toy.theta0 [qc 1 8]
           (default 0 (toy.sqrt_newton (qc 25 4))) 1 (qc 1000001 1000000)).
  - reflexivity.
  - apply toy_fvp_spd.
  - qc_decide.
  - apply (bool_decide_unpack _). vm_compute. exact I.
  - qc_decide.
  - qc_decide.
  - qc_decide.
  - qc_decide.
  - split; qc_decide.
Defined.

Lemma training_keeps_policy_shape_witness :
  ∃ r w' theta',
    learn toy.policy toy.value toy.value_step toy.grad toy.kl_hessian_vp
      toy.sqrt_exact toy.config toy.self_policy [toy.episodes; toy.episodes] 3
      toy.w0 = (r, w') ∧
    models w' !! toy.self_policy = Some theta' ∧
    length theta' = length toy.theta0.
Proof.
  apply (training_keeps_policy_shape toy.policy toy.value toy.value_step toy.grad
           toy.kl_hessian_vp toy.sqrt_exact toy.config toy.self_policy
           [toy.episodes; toy.episodes] 3 toy.w0 toy.theta0).
  reflexivity.
Defined.

(** ** An accepted step lowers the loss *)

Section accepted_step.
Context {St : Type}.
Variable policy_forward : vec → St → vec.
Variable a : agent.
Variable self_policy : nat.

(** The losses the search of [learn] compared when it reports success. *)
Lemma line_search_improves (b : trajectories St) (advantage fullstep : vec)
    (eir : Qc) (w w1 : world) (live new_theta : vec) :
  models w !! self_policy = Some live →
  line_search a (get_loss policy_forward self_policy b advantage)
    live fullstep eir w = (Some (true, new_theta), w1) →
  ∃ f0 f1,
    loss_value policy_forward live b advantage live = Some f0 ∧
    loss_value policy_forward live b advantage new_theta = Some f1 ∧
    f1 < f0.
Proof.
  intros Hlive.
  assert (∀ theta w', extends w w' →
            ∃ w'', get_loss policy_forward self_policy b advantage theta w' =
                     (loss_value policy_forward live b advantage theta, w'') ∧
                   extends w' w'')
    as Hf.
  { intros theta w' Hw'. apply get_loss_spec. by eapply extends_lookup. }
  unfold line_search. rewrite bind_unfold.
  destruct (Hf live w) as (w0 & -> & Hw0); [done|].
  destruct (loss_value policy_forward live b advantage live) as [fval|] eqn:Hfval;
    [|done].
  destruct (ls_loop_frame a _ _ w live fullstep eir fval Hf (ls_iters a) 0%nat w0 Hw0)
    as (r & w' & -> & _ & Hr).
  intros [= -> ->]. destruct Hr as (_ & fxi & Hfxi & Hpos).
  exists fval, fxi. split_and!; [done | done |]. by apply Qclt_minus_iff.
Qed.

(** X14. When the search of [learn] reports success, the parameters it
    returns have a strictly smaller surrogate loss on the batch than the
    live parameters it started from ([get_loss] evaluated at both, from the
    world the search started in), and after the write-back they are the
    parameters of the live policy. *)
Theorem accepted_step_lowers_loss (b : trajectories St) (advantage fullstep : vec)
    (eir : Qc) (w : world) (live new_theta : vec) :
  models w !! self_policy = Some live →
  length fullstep = length live →
  (line_search a (get_loss policy_forward self_policy b advantage)
     live fullstep eir w).1 = Some (true, new_theta) →
  ∃ f0 f1,
    (get_loss policy_forward self_policy b advantage live w).1 = Some f0 ∧
    (get_loss policy_forward self_policy b advantage new_theta w).1 = Some f1 ∧
    f1 < f0 ∧
    models (search_and_apply policy_forward a self_policy b advantage
              fullstep eir w).2 !! self_policy = Some new_theta.
Proof.
  intros Hlive Hlen Hsearch.
  destruct (line_search a _ live fullstep eir w) as [r w1] eqn:Hrun.
  simpl in Hsearch. subst r.
  destruct (line_search_improves b advantage fullstep eir w w1 live new_theta
              Hlive Hrun) as (f0 & f1 & Hf0 & Hf1 & Hlt).
  exists f0, f1.
  destruct (get_loss_spec policy_forward self_policy b advantage live w live Hlive)
    as (w2 & -> & _).
  destruct (get_loss_spec policy_forward self_policy b advantage new_theta w live Hlive)
    as (w3 & -> & _).
  split_and!; [done..|].
  destruct (search_and_apply_spec policy_forward a self_policy b advantage
              fullstep eir w live Hlive) as (r & w1' & Hrun' & _ & _ & Hr).
  rewrite Hrun in Hrun'. injection Hrun' as <- <-.
  destruct Hr as (_ & _ & Hwrite). rewrite (Hwrite Hlen). simpl.
  apply lookup_insert_eq.
Qed.
End accepted_step.

Lemma accepted_step_lowers_loss_witness :
  let b := batch_at toy.collected 0 3 in
  ∃ f0 f1,
    (get_loss toy.policy toy.self_policy b [1; - 1; 0] toy.theta0 toy.w0).1 = Some f0 ∧
    (get_loss toy.policy toy.self_policy b [1; - 1; 0] [qc 11 20] toy.w0).1 = Some f1 ∧
    f1 < f0 ∧
    models (search_and_apply toy.policy toy.config toy.self_policy b [1; - 1; 0]
              [qc 1 20] (qc 1 15) toy.w0).2 !! toy.self_policy = Some [qc 11 20].
Proof.
  apply (accepted_step_lowers_loss toy.policy toy.config toy.self_policy
           (batch_at toy.collected 0 3) [1; - 1; 0] [qc 1 20] (qc 1 15)
           toy.w0 toy.theta0 [qc 11 20]).
  - reflexivity.
  - reflexivity.
  - qc_decide.
Defined.
